(** * keep-to-pdf: a shallow embedding of [index.js] and its properties

    The script converts Google Keep note exports (JSON) to PDF and Markdown
    and keeps a ledger of the notes it has converted in [processed.txt].

    JavaScript strings are sequences of UTF-16 code units: a string is a
    [list N] here, and the regular expressions of the script run on a small
    backtracking matcher that follows the ECMAScript matching order (leftmost
    start, greedy quantifiers, continuation passing). *)

From Stdlib Require Import NArith Ascii String List Bool Lia.
From stdpp Require Import base option list gmap.

Local Open Scope N_scope.

(** ** JavaScript strings *)

Abbreviation char := N.
Abbreviation jsstring := (list N).

Fixpoint js (s : string) : jsstring :=
  match s with
  | EmptyString => []
  | String a s' => N_of_ascii a :: js s'
  end.

Definition between (lo hi c : char) : bool := (lo <=? c) && (c <=? hi).

(** [\s] of ECMAScript: WhiteSpace and LineTerminator code points. *)
Definition is_space (c : char) : bool :=
  between 9 13 c || (c =? 32) || (c =? 160) || (c =? 5760)
  || between 8192 8202 c || (c =? 8232) || (c =? 8233) || (c =? 8239)
  || (c =? 8287) || (c =? 12288) || (c =? 65279).

(** LineTerminator: LF, CR, U+2028, U+2029.  [.] matches everything else. *)
Definition is_line_terminator (c : char) : bool :=
  (c =? 10) || (c =? 13) || (c =? 8232) || (c =? 8233).

Definition dot (c : char) : bool := negb (is_line_terminator c).

(** Canonicalize of a case-insensitive, non-unicode pattern, as far as ASCII
    pattern characters can tell: a code unit of 128 and more never
    canonicalizes to an ASCII one, so against an ASCII literal only the
    ASCII letters fold. *)
Definition canonicalize (c : char) : char :=
  if between 97 122 c then c - 32 else c.

Definition char_eq (icase : bool) (a b : char) : bool :=
  if icase then canonicalize a =? canonicalize b else a =? b.

(** [s.split(sep)] for a separator of one code unit. *)
Fixpoint split (sep : char) (s : jsstring) : list jsstring :=
  match s with
  | [] => [[]]
  | c :: s' =>
      if c =? sep then [] :: split sep s'
      else match split sep s' with
           | l :: ls => (c :: l) :: ls
           | [] => [[c]]
           end
  end.

(** [a.join(sep)] on an array of strings. *)
Fixpoint join (sep : jsstring) (l : list jsstring) : jsstring :=
  match l with
  | [] => []
  | [x] => x
  | x :: l' => x ++ sep ++ join sep l'
  end.

(** [a.includes(x)] on an array of strings. *)
Definition includes (x : jsstring) (l : list jsstring) : bool :=
  bool_decide (x ∈ l).

Fixpoint starts_with (pat s : jsstring) : bool :=
  match pat, s with
  | [], _ => true
  | _ :: _, [] => false
  | a :: pat', b :: s' => (a =? b) && starts_with pat' s'
  end.

(** [s.replace(pat, rep)] with a string pattern: the first occurrence only. *)
Fixpoint replace_str (pat rep s : jsstring) : jsstring :=
  if starts_with pat s then rep ++ drop (length pat) s
  else match s with
       | [] => []
       | c :: s' => c :: replace_str pat rep s'
       end.

(** [path.basename(p)] (POSIX): trailing slashes are dropped, then the part
    after the last remaining slash is kept. *)
Fixpoint drop_slashes (r : jsstring) : jsstring :=
  match r with
  | c :: r' => if c =? 47 then drop_slashes r' else r
  | [] => []
  end.

Fixpoint until_slash (r : jsstring) : jsstring :=
  match r with
  | c :: r' => if c =? 47 then [] else c :: until_slash r'
  | [] => []
  end.

Definition basename (p : jsstring) : jsstring :=
  rev (until_slash (drop_slashes (rev p))).

(** ** Regular expressions *)

Inductive regex : Type :=
| Lit (c : char)
| Cls (p : char -> bool)
| Cat (r1 r2 : regex)
| Star (r : regex)
| Group (i : nat) (r : regex).

(** [r+] is [r r*] for the patterns of the script (no group under a
    quantifier). *)
Definition Plus (r : regex) : regex := Cat r (Star r).

Fixpoint Lits (s : jsstring) (r : regex) : regex :=
  match s with
  | [] => r
  | c :: s' => Cat (Lit c) (Lits s' r)
  end.

Record regexp := RegExp { re_body : regex; re_icase : bool; re_global : bool }.

Abbreviation captures := (gmap nat (list N)).
Abbreviation mstate := (list N * gmap nat (list N))%type.
Abbreviation cont := (list N -> gmap nat (list N) -> option (list N * gmap nat (list N))).

(** Greedy iteration: another round of [m] is tried first, and a round that
    consumes nothing is rejected (the empty check of RepeatMatcher). *)
Fixpoint star_loop (m : jsstring -> captures -> cont -> option mstate)
    (k : cont) (n : nat) (s : jsstring) (cs : captures) : option mstate :=
  match n with
  | O => k s cs
  | S n' =>
      match m s cs (fun s' cs' =>
                      if (length s' <? length s)%nat
                      then star_loop m k n' s' cs' else None) with
      | Some x => Some x
      | None => k s cs
      end
  end.

Fixpoint rmatch (icase : bool) (r : regex) (s : jsstring) (cs : captures)
    (k : cont) {struct r} : option mstate :=
  match r with
  | Lit c =>
      match s with
      | x :: s' => if char_eq icase c x then k s' cs else None
      | [] => None
      end
  | Cls p =>
      match s with
      | x :: s' => if p x then k s' cs else None
      | [] => None
      end
  | Cat r1 r2 => rmatch icase r1 s cs (fun s' cs' => rmatch icase r2 s' cs' k)
  | Star r1 => star_loop (rmatch icase r1) k (length s) s cs
  | Group i r1 =>
      rmatch icase r1 s cs
        (fun s' cs' => k s' (<[i := take (length s - length s') s]> cs'))
  end.

Definition match_here (re : regexp) (s : jsstring) : option mstate :=
  rmatch (re_icase re) (re_body re) s ∅ (fun s' cs' => Some (s', cs')).

Record match_result := MatchResult {
  m_index : nat;
  m_text : jsstring;
  m_groups : gmap nat jsstring
}.

(** RegExpBuiltinExec from index 0: the leftmost start that matches. *)
Fixpoint exec_at (re : regexp) (i : nat) (s : jsstring) : option match_result :=
  match match_here re s with
  | Some (s', cs) =>
      Some (MatchResult i (take (length s - length s') s) cs)
  | None =>
      match s with
      | [] => None
      | _ :: s' => exec_at re (S i) s'
      end
  end.

Definition exec (re : regexp) (s : jsstring) : option match_result :=
  exec_at re 0 s.

(** [m.groups.path] / [m[i]]: the text of a group that took part. *)
Definition group (m : match_result) (i : nat) : jsstring :=
  default [] (m_groups m !! i).

(** Replacing every match (flag [g]); after an empty match the scan moves on
    by one code unit.  None of the patterns looks behind its start, so the
    scan continues on the rest of the string. *)
Fixpoint replace_all (n : nat) (re : regexp) (rep s : jsstring) : jsstring :=
  match n with
  | O => s
  | S n' =>
      match exec re s with
      | None => s
      | Some m =>
          let pre := take (m_index m) s in
          let post := drop (m_index m + length (m_text m)) s in
          match m_text m with
          | [] =>
              pre ++ rep ++
                match post with
                | [] => []
                | c :: post' => c :: replace_all n' re rep post'
                end
          | _ :: _ => pre ++ rep ++ replace_all n' re rep post
          end
      end
  end.

(** [s.replace(re, rep)] for a replacement text without [$]. *)
Definition replace (re : regexp) (rep s : jsstring) : jsstring :=
  if re_global re then replace_all (S (length s)) re rep s
  else match exec re s with
       | None => s
       | Some m =>
           take (m_index m) s ++ rep ++ drop (m_index m + length (m_text m)) s
       end.

(** ** The note functions of [index.js] *)

(** [[^a-zA-Z0-9_ ]] *)
Definition not_slug_input (c : char) : bool :=
  negb (between 97 122 c || between 65 90 c || between 48 57 c
        || (c =? 95) || (c =? 32)).

(** [/[^a-zA-Z0-9_ ]/g] and [/\s+/g] *)
Definition slugStripRe : regexp := RegExp (Cls not_slug_input) false true.
Definition slugSpaceRe : regexp := RegExp (Plus (Cls is_space)) false true.

Definition toSlug (title : jsstring) : jsstring :=
  replace slugSpaceRe (js "_") (replace slugStripRe [] title).

Inductive error : Type :=
| TypeError
| SyntaxError
| RenderError
| IOError (path : jsstring).

Inductive result (A : Type) : Type :=
| Ok (a : A)
| Throw (e : error).
Arguments Ok {A} a.
Arguments Throw {A} e.

Record label := Label { name : jsstring }.
Record annotation := Annotation { url : jsstring }.

(** The raw note: every field may be missing from the JSON object; a field
    that is there has the type of the export format. *)
Record raw_note := RawNote {
  note_title : option jsstring;
  note_textContent : option jsstring;
  note_labels : option (list label);
  note_annotations : option (list annotation)
}.

(** [heading] is the boolean [true] or a string. *)
Inductive heading_value : Type :=
| HTrue
| HText (s : jsstring).

Record parsed_note := ParsedNote {
  title : jsstring;
  heading : heading_value;
  content : jsstring;
  source : jsstring;
  labels : jsstring;
  filename : jsstring
}.

(** The pattern of the source line, with flag [i]: the literal "Source:", then
    [\s+], then a group (named [path] where the script reads it) holding
    any run of characters other than line terminators.  The heading pattern:
    the literal "# " followed by the same kind of group. *)
Definition sourceBody : regex :=
  Lits (js "Source:") (Cat (Plus (Cls is_space)) (Group 1 (Star (Cls dot)))).
Definition sourcePathRe : regexp := RegExp sourceBody true false.
Definition sourceStripRe : regexp := RegExp sourceBody true false.
Definition headingRe : regexp :=
  RegExp (Lits (js "# ") (Group 1 (Star (Cls dot)))) false false.

(** [note.title || path.basename(npath).replace(".json", "")] *)
Definition title_or_filename (npath : jsstring) (note : raw_note) : jsstring :=
  match note_title note with
  | Some (c :: t) => c :: t
  | _ => replace_str (js ".json") [] (basename npath)
  end.

(** [noteContent.match(re)] of a pattern without flag [g] is [re.exec]; on a
    note without [textContent] the call throws. *)
Definition parseNote (npath : jsstring) (note : raw_note) : result parsed_note :=
  match note_textContent note with
  | None => Throw TypeError
  | Some noteContent0 =>
      let noteTitle := title_or_filename npath note in
      let src := exec sourcePathRe noteContent0 in
      let '(noteSource, noteContent) :=
        match src with
        | None =>
            (match note_annotations note with
             | Some l => join (js ", ") (map url l)
             | None => js "N/A"
             end, noteContent0)
        | Some m => (group m 1, replace sourceStripRe [] noteContent0)
        end in
      let hd := exec headingRe (join (js ",") (take 3 (split 10 noteContent))) in
      let noteHeading := match hd with Some _ => HTrue | None => HText noteTitle end in
      let noteLabels :=
        join (js ", ") (map name (default [] (note_labels note))) in
      Ok (ParsedNote noteTitle noteHeading noteContent noteSource noteLabels
            (toSlug noteTitle))
  end.

Definition notePdfTpl (note : parsed_note) : jsstring :=
  let tpl :=
    match heading note with
    | HTrue => []
    | HText h => js "# " ++ h ++ [10; 10]
    end in
  tpl ++ content note ++ [10; 10] ++ js "----" ++ [10] ++ js "Source: "
      ++ source note ++ [10; 10] ++ js "Labels: " ++ labels note.

(** ** The process: files, console, pending requests *)

Inductive event : Type :=
| LogProcessing (npath : jsstring)
| LogSkipping (npath : jsstring)
| LogError (npath : jsstring) (e : error)
| LogCompleted (count : nat).

(** An asynchronous call that yields no value: the request exists once the
    function is called, and is carried out while the caller awaits it. *)
Inductive request : Type :=
| WriteFile (path data : jsstring)
| MdToPdf (content dest : jsstring).

Record world := World {
  files : gmap jsstring jsstring;
  console : list event;
  pending : list request
}.

(** What the script does not decide itself. *)
Record env := Env {
  (** [JSON.parse]: [None] is a SyntaxError *)
  JSON_parse : jsstring -> option raw_note;
  (** the Markdown renderer behind [mdToPdf], on a content without front
      matter: [None] is a failed render *)
  render : jsstring -> option jsstring;
  (** whether the system accepts a write to a path *)
  writable : jsstring -> bool;
  (** [glob("./keep/*.json")] on the files present *)
  glob : gmap jsstring jsstring -> result (list jsstring);
  (** whether the thread pool has opened the file of a request that is
      still pending when the process exits *)
  opened_at_exit : jsstring -> bool;
  (** [mdToPdf] on a content that begins with a front matter, called with a
      [dest]: the front matter is merged over the configuration of the call,
      [dest] and the PDF options included, so it decides which files are
      written, with what; [None] is a failed render *)
  fenced_render : jsstring -> jsstring -> option (list (jsstring * jsstring))
}.

Definition IO (A : Type) : Type := world -> result A * world.

Definition ret {A} (a : A) : IO A := fun w => (Ok a, w).
Definition throw {A} (e : error) : IO A := fun w => (Throw e, w).
Definition bind {A B} (m : IO A) (f : A -> IO B) : IO B :=
  fun w => match m w with
           | (Ok a, w') => f a w'
           | (Throw e, w') => (Throw e, w')
           end.
Definition try_catch {A} (m : IO A) (h : error -> IO A) : IO A :=
  fun w => match m w with
           | (Ok a, w') => (Ok a, w')
           | (Throw e, w') => h e w'
           end.
Definition lift {A} (r : result A) : IO A := fun w => (r, w).

#[export] Instance io_ret : MRet IO := @ret.
#[export] Instance io_bind : MBind IO := fun A B f m => bind m f.

Definition set_file (p d : jsstring) (w : world) : world :=
  World (<[p := d]> (files w)) (console w) (pending w).

Definition console_log (ev : event) : IO unit :=
  fun w => (Ok tt, World (files w) (console w ++ [ev]) (pending w)).

Definition readFile (p : jsstring) : IO jsstring :=
  fun w => match files w !! p with
           | Some d => (Ok d, w)
           | None => (Throw (IOError p), w)
           end.

Definition existsSync (p : jsstring) : IO bool :=
  fun w => (Ok (bool_decide (is_Some (files w !! p))), w).

Definition fs_write (E : env) (p d : jsstring) : IO unit :=
  fun w => if writable E p then (Ok tt, set_file p d w)
           else (Throw (IOError p), w).

(** The renderer looks for a front matter only in a content that begins,
    after an optional byte-order mark, with the fence "---". *)
Definition fenced (c : jsstring) : bool :=
  starts_with (js "---") (match c with 65279 :: c' => c' | _ => c end).

Fixpoint write_all (E : env) (ws : list (jsstring * jsstring)) : IO unit :=
  match ws with
  | [] => ret tt
  | (p, d) :: ws' => fs_write E p d;; write_all E ws'
  end.

(** What [mdToPdf] writes for a content and the [dest] of the call: the PDF
    at [dest], unless the content has a front matter. *)
Definition mdToPdf_writes (E : env) (c dest : jsstring)
    : option (list (jsstring * jsstring)) :=
  if fenced c then fenced_render E c dest
  else match render E c with
       | Some pdf => Some [(dest, pdf)]
       | None => None
       end.

(** [await f(...)]: the request is carried out, or its failure is thrown. *)
Definition await (E : env) (r : request) : IO unit :=
  match r with
  | WriteFile p d => fs_write E p d
  | MdToPdf c dest =>
      match mdToPdf_writes E c dest with
      | Some ws => write_all E ws
      | None => throw RenderError
      end
  end.

(** [f(...)] without [await]: the request is left pending. *)
Definition detach (r : request) : IO unit :=
  fun w => (Ok tt, World (files w) (console w) (pending w ++ [r])).

(** A file write first opens its file (flag [w]: created or emptied), and
    writes the data when the opened handle comes back on a later turn of the
    event loop. *)
Definition abandon (E : env) (r : request) (fs : gmap jsstring jsstring)
    : gmap jsstring jsstring :=
  match r with
  | WriteFile p _ => if opened_at_exit E p then <[p := []]> fs else fs
  | MdToPdf _ _ => fs
  end.

(** [process.exit(0)]: the process ends at once; pending requests are not
    carried out. *)
Definition process_exit (E : env) : IO unit :=
  fun w => (Ok tt, World (foldr (abandon E) (files w) (rev (pending w)))
                     (console w) []).

Definition processed_txt : jsstring := js "./processed.txt".

Definition getNotes (E : env) : IO (list jsstring) :=
  fun w => (glob E (files w), w).

Definition openNote (E : env) (npath : jsstring) : IO raw_note :=
  data ← readFile npath;
  match JSON_parse E data with
  | Some note => ret note
  | None => throw SyntaxError
  end.

(** The destinations "./generated/${filename}.pdf" and
    "./generated/${filename}.md". *)
Definition pdf_dest (filename : jsstring) : jsstring :=
  js "./generated/" ++ filename ++ js ".pdf".
Definition md_dest (filename : jsstring) : jsstring :=
  js "./generated/" ++ filename ++ js ".md".

Definition noteToPdf (filename content : jsstring) : request :=
  MdToPdf content (pdf_dest filename).

Definition noteSaveToMd (filename content : jsstring) : request :=
  WriteFile (md_dest filename) content.

Definition getProcessed : IO (list jsstring) :=
  present ← existsSync processed_txt;
  if negb present then ret []
  else contents ← readFile processed_txt; ret (split 10 contents).

Definition updateProcessed (processed : list jsstring) : request :=
  WriteFile processed_txt (join [10] processed).

(** The body of [try]: the five stages of one note. *)
Definition convert (E : env) (npath : jsstring) : IO unit :=
  note ← openNote E npath;
  pnote ← lift (parseNote npath note);
  let tpl := notePdfTpl pnote in
  await E (noteToPdf (filename pnote) tpl);;
  await E (noteSaveToMd (filename pnote) (content pnote)).

(** One round of the loop of [main], on the pair of [processed] and [count]. *)
Definition process_note (E : env) (npath : jsstring)
    (st : list jsstring * nat) : IO (list jsstring * nat) :=
  let '(processed, count) := st in
  if negb (includes npath processed) then
    console_log (LogProcessing npath);;
    try_catch
      (convert E npath;; ret (processed ++ [npath], S count))
      (fun e => console_log (LogError npath e);; ret (processed, count))
  else
    console_log (LogSkipping npath);; ret (processed, count).

Fixpoint for_notes (E : env) (notes : list jsstring)
    (st : list jsstring * nat) : IO (list jsstring * nat) :=
  match notes with
  | [] => ret st
  | npath :: rest => st' ← process_note E npath st; for_notes E rest st'
  end.

Definition main (E : env) : IO unit :=
  processed ← getProcessed;
  notes ← getNotes E;
  st ← for_notes E notes (processed, O);
  detach (updateProcessed (fst st));;
  console_log (LogCompleted (snd st));;
  process_exit E.

(** The ledger functions on their own: [save(load())], both awaited. *)
Definition save_load (E : env) : IO unit :=
  processed ← getProcessed; await E (updateProcessed processed).

(** ** Vocabulary of the statements *)

Fixpoint take_while (p : char -> bool) (s : jsstring) : jsstring :=
  match s with
  | c :: s' => if p c then c :: take_while p s' else []
  | [] => []
  end.

Fixpoint drop_while (p : char -> bool) (s : jsstring) : jsstring :=
  match s with
  | c :: s' => if p c then drop_while p s' else s
  | [] => []
  end.

(** [pat] appears somewhere in [s]. *)
Definition occurs (pat s : jsstring) : Prop := exists a b, s = a ++ pat ++ b.

(** [[A-Za-z0-9_]] *)
Definition slug_char (c : char) : bool :=
  between 97 122 c || between 65 90 c || between 48 57 c || (c =? 95).

(** Equality up to the case of ASCII letters. *)
Definition ci_eq (a b : jsstring) : Prop :=
  Forall2 (fun x y => canonicalize x = canonicalize y) a b.

(** [s] begins with "Source:" in any case, and a whitespace character. *)
Definition source_start (s : jsstring) : Prop :=
  exists kw c t, s = kw ++ c :: t /\ ci_eq kw (js "Source:") /\ is_space c = true.

(** The literal characters of a pattern against the start of [s]. *)
Fixpoint lits_match (icase : bool) (pat s : jsstring) : bool :=
  match pat, s with
  | [], _ => true
  | _ :: _, [] => false
  | a :: pat', b :: s' => char_eq icase a b && lits_match icase pat' s'
  end.

(** [source_start], decided. *)
Definition source_startb (s : jsstring) : bool :=
  lits_match true (js "Source:") s
  && match drop (length (js "Source:")) s with
     | c :: _ => is_space c
     | [] => false
     end.

(** The lines of the template as the specification words them: the heading
    line and a blank line unless [heading] is [true], the body, the rule, the
    source line, a blank line, the labels line. *)
Definition template_lines_as_worded (note : parsed_note) : list jsstring :=
  match heading note with
  | HTrue => []
  | HText h => [js "# " ++ h; []]
  end ++ split 10 (content note)
      ++ [js "----"; js "Source: " ++ source note; []; js "Labels: " ++ labels note].

(** An environment for the examples: every file parses to the same titled
    note, the renderer and every write succeed, and the directory holds one
    note. *)
Definition demo_note : raw_note :=
  RawNote (Some (js "My note")) (Some (js "hello")) None None.

Definition demo_env (race : bool) : env :=
  Env (fun _ => Some demo_note) (fun c => Some (js "%PDF" ++ c)) (fun _ => true)
    (fun _ => Ok [js "./keep/a.json"]) (fun _ => race)
    (fun c dest => Some [(dest, js "%PDF" ++ c)]).

Definition demo_world : world :=
  World {[ js "./keep/a.json" := js "{}" ]} [] [].

(** A world whose ledger lists two notes. *)
Definition ledger_world : world :=
  World {[ js "./processed.txt" := js "./keep/a.json" ++ [10] ++ js "./keep/b.json" ]}
    [] [].

Definition demo_parsed : parsed_note :=
  ParsedNote (js "My note") (HText (js "My note")) (js "hello") (js "N/A") []
    (js "My_note").





(** One underscore for each maximal run of characters of [p]; the other
    characters as they are.  [in_run] tells that the underscore of the
    current run is already written. *)
Fixpoint underscore_runs (p : char -> bool) (in_run : bool) (s : jsstring)
    : jsstring :=
  match s with
  | [] => []
  | c :: s' =>
      if p c then
        if in_run then underscore_runs p true s'
        else 95 :: underscore_runs p true s'
      else c :: underscore_runs p false s'
  end.

(** A string without lone surrogates: the strings that a file written and
    read as UTF-8 gives back unchanged. *)
Fixpoint well_formed (s : jsstring) : bool :=
  match s with
  | [] => true
  | c :: s' =>
      if between 55296 56319 c then
        match s' with
        | d :: s'' => between 56320 57343 d && well_formed s''
        | [] => false
        end
      else negb (between 56320 57343 c) && well_formed s'
  end.

(** No front matter makes the renderer write to [p], whatever other [dest]
    the call names. *)
Definition never_redirected_to (E : env) (p : jsstring) : Prop :=
  forall c dest ws, dest <> p -> fenced_render E c dest = Some ws -> p ∉ ws.*1.

(** The characters that [toSlug] keeps in its first pass: [[a-zA-Z0-9_ ]]. *)
Definition slug_input (c : char) : bool := negb (not_slug_input c).

Close Scope N_scope.

(** ** The matcher *)

Section Matcher.
Variable icase : bool.

(** Whatever a pattern consumes is a prefix: the continuation is entered
    on a suffix of the input. *)
Lemma star_loop_suffix (m : jsstring -> captures -> cont -> option mstate) :
  (forall s cs k x, m s cs k = Some x ->
     exists s' cs', s' `suffix_of` s /\ k s' cs' = Some x) ->
  forall n s cs k x, star_loop m k n s cs = Some x ->
    exists s' cs', s' `suffix_of` s /\ k s' cs' = Some x.
Proof.
  intros Hm n. induction n as [|n IH]; intros s cs k x H; simpl in H.
  - by exists s, cs.
  - destruct (m s cs _) as [y|] eqn:E.
    + injection H as ->. apply Hm in E as (s1 & cs1 & Hs1 & E).
      destruct (length s1 <? length s); [|done].
      apply IH in E as (s2 & cs2 & Hs2 & E).
      exists s2, cs2. split; [by etrans|done].
    + by exists s, cs.
Qed.

Lemma rmatch_suffix r : forall s cs k x,
  rmatch icase r s cs k = Some x ->
  exists s' cs', s' `suffix_of` s /\ k s' cs' = Some x.
Proof.
  induction r as [c|p|r1 IH1 r2 IH2|r1 IH1|i r1 IH1]; intros s cs k x H;
    simpl in H.
  - destruct s as [|a s]; [done|]. destruct (char_eq icase c a); [|done].
    exists s, cs. split; [apply suffix_cons_r|]; done.
  - destruct s as [|a s]; [done|]. destruct (p a); [|done].
    exists s, cs. split; [apply suffix_cons_r|]; done.
  - apply IH1 in H as (s1 & cs1 & Hs1 & H).
    apply IH2 in H as (s2 & cs2 & Hs2 & H).
    exists s2, cs2. split; [by etrans|done].
  - eapply star_loop_suffix; [apply IH1|apply H].
  - apply IH1 in H as (s1 & cs1 & Hs1 & H). eauto.
Qed.

(** A greedy class: when the continuation accepts the end of the longest
    run, that is the answer. *)
Lemma star_loop_cls p (k : cont) x : forall n s cs,
  length s <= n ->
  k (drop_while p s) cs = Some x ->
  star_loop (rmatch icase (Cls p)) k n s cs = Some x.
Proof.
  induction n as [|n IH]; intros s cs Hn Hk.
  - destruct s; simpl in *; [done|lia].
  - destruct s as [|c s]; simpl in *; [by rewrite Hk|].
    destruct (p c).
    + destruct (Nat.ltb_spec (length s) (S (length s))); [|lia].
      rewrite IH; [done|lia|done].
    + done.
Qed.

Lemma rmatch_star_cls p (k : cont) s cs x :
  k (drop_while p s) cs = Some x ->
  rmatch icase (Star (Cls p)) s cs k = Some x.
Proof. intros H. simpl. by apply star_loop_cls. Qed.

Lemma rmatch_plus_cls p (k : cont) c s cs x :
  p c = true ->
  k (drop_while p s) cs = Some x ->
  rmatch icase (Plus (Cls p)) (c :: s) cs k = Some x.
Proof.
  intros Hp H. unfold Plus.
  change (rmatch icase (Cat (Cls p) (Star (Cls p))) (c :: s) cs k)
    with (if p c then rmatch icase (Star (Cls p)) s cs k else None).
  rewrite Hp. by apply rmatch_star_cls.
Qed.

Lemma rmatch_plus_cls_fail p (k : cont) s cs :
  match s with c :: _ => p c = false | [] => True end ->
  rmatch icase (Plus (Cls p)) s cs k = None.
Proof. destruct s as [|c s]; [done|]. simpl. by intros ->. Qed.
End Matcher.

Lemma take_while_drop_while p s : take_while p s ++ drop_while p s = s.
Proof. induction s as [|c s IH]; simpl; [done|]. destruct (p c); simpl; congruence. Qed.

Lemma take_sub_suffix (t post : jsstring) :
  take (length (t ++ post) - length post) (t ++ post) = t.
Proof. rewrite length_app. by rewrite Nat.add_sub, take_app_length. Qed.

Lemma take_sub_drop_while p s :
  take (length s - length (drop_while p s)) s = take_while p s.
Proof.
  rewrite <- (take_while_drop_while p s) at 1 3. apply take_sub_suffix.
Qed.

(** ** The leftmost match *)

Lemma match_here_suffix re s s' cs :
  match_here re s = Some (s', cs) -> exists t, s = t ++ s'.
Proof.
  intros H. apply rmatch_suffix in H as (s1 & cs1 & [t Ht] & H).
  injection H as -> ->. by exists t.
Qed.

Lemma exec_at_Some re : forall s i m,
  exec_at re i s = Some m ->
  exists pre t post,
    s = pre ++ t ++ post /\ m_index m = i + length pre /\ m_text m = t /\
    match_here re (t ++ post) = Some (post, m_groups m) /\
    (forall a b, pre = a ++ b -> b <> [] -> match_here re (b ++ t ++ post) = None).
Proof.
  assert (Hhere : forall s i m s' cs,
            match_here re s = Some (s', cs) ->
            Some (MatchResult i (take (length s - length s') s) cs) = Some m ->
            exists pre t post,
              s = pre ++ t ++ post /\ m_index m = i + length pre /\ m_text m = t /\
              match_here re (t ++ post) = Some (post, m_groups m) /\
              (forall a b, pre = a ++ b -> b <> [] ->
                 match_here re (b ++ t ++ post) = None)).
  { intros s i m s' cs E H. injection H as <-.
    destruct (match_here_suffix _ _ _ _ E) as [t ->].
    exists [], t, s'. simpl. rewrite take_sub_suffix.
    repeat split; [lia|done|]. intros [|??] [|??]; done. }
  induction s as [|c s IH]; intros i m H; simpl in H.
  - destruct (match_here re []) as [[s' cs]|] eqn:E; [|done]. eauto.
  - destruct (match_here re (c :: s)) as [[s' cs]|] eqn:E; [eauto|].
    apply IH in H as (pre & t & post & -> & Hi & Ht & Hm & Hpre).
    exists (c :: pre), t, post. simpl. repeat split; [lia|done|done|].
    intros [|a0 a] b Hab Hb; simpl in Hab.
    + subst b. apply E.
    + injection Hab as _ ->. by apply (Hpre a).
Qed.

Lemma exec_at_None re : forall s i,
  exec_at re i s = None -> forall a b, s = a ++ b -> match_here re b = None.
Proof.
  induction s as [|c s IH]; intros i H a b Hab; simpl in H.
  - destruct a, b; try done. by destruct (match_here re []) as [[??]|].
  - destruct (match_here re (c :: s)) as [[??]|] eqn:E; [done|].
    destruct a as [|a0 a]; simpl in Hab.
    + by subst b.
    + injection Hab as _ ->. by eapply IH.
Qed.

Lemma exec_at_first re : forall pre rest i post cs,
  (forall a b, pre = a ++ b -> b <> [] -> match_here re (b ++ rest) = None) ->
  match_here re rest = Some (post, cs) ->
  exec_at re i (pre ++ rest) =
    Some (MatchResult (i + length pre) (take (length rest - length post) rest) cs).
Proof.
  induction pre as [|c pre IH]; intros rest i post cs Hpre Hm.
  - simpl. rewrite Nat.add_0_r. destruct rest; simpl; by rewrite Hm.
  - pose proof (Hpre [] (c :: pre) eq_refl ltac:(done)) as E0.
    simpl in *. rewrite E0.
    rewrite (IH _ _ post cs); [do 2 f_equal; lia| |done].
    intros a b -> Hb. by apply (Hpre (c :: a) b).
Qed.

Lemma exec_at_nowhere re : forall s i,
  (forall a b, s = a ++ b -> match_here re b = None) -> exec_at re i s = None.
Proof.
  induction s as [|c s IH]; intros i H; simpl.
  - by rewrite (H [] [] eq_refl).
  - rewrite (H [] (c :: s) eq_refl). apply IH. intros a b ->.
    by apply (H (c :: a) b).
Qed.

(** ** Replacing every match of a pattern that starts on a class *)

Section ReplaceAll.
Variable re : regexp.
Variable p : char -> bool.
Variable g : jsstring -> jsstring.
Hypothesis g_suffix : forall s, g s `suffix_of` s.
Hypothesis here : forall s,
  match_here re s =
    match s with
    | c :: s' => if p c then Some (g s', ∅) else None
    | [] => None
    end.

Lemma exec_none_clean s :
  exec re s = None -> Forall (fun c => p c = false) s.
Proof.
  intros H. apply Forall_forall. intros c Hc.
  apply list_elem_of_split in Hc as (a & b & ->).
  pose proof (exec_at_None _ _ _ H a (c :: b) eq_refl) as E.
  rewrite here in E. by destruct (p c).
Qed.

Lemma exec_clean_none s :
  Forall (fun c => p c = false) s -> exec re s = None.
Proof.
  intros H. apply exec_at_nowhere. intros a b ->. rewrite here.
  destruct b as [|c b]; [done|].
  apply Forall_app in H as [_ H]. apply Forall_cons in H as [-> _]. done.
Qed.

Lemma replace_all_clean n rep s :
  Forall (fun c => p c = false) s -> replace_all n re rep s = s.
Proof. intros H. destruct n; simpl; [done|]. by rewrite exec_clean_none. Qed.

(** Every character of the result comes from the replacement text or is a
    character of the input outside the class. *)
Lemma replace_all_chars (Q : char -> Prop) rep :
  Forall Q rep ->
  forall n s, length s < n ->
    Forall (fun c => p c = false -> Q c) s ->
    Forall Q (replace_all n re rep s).
Proof.
  intros Hrep. induction n as [|n IH]; intros s Hn Hs; [lia|]. simpl.
  destruct (exec re s) as [m|] eqn:E.
  - apply exec_at_Some in E as (pre & t & post & -> & Hi & Ht & Hm & Hpre).
    simpl in Hi. rewrite Hi, Ht. rewrite here in Hm.
    assert (exists c s', t ++ post = c :: s' /\ p c = true /\ g s' = post)
      as (c & s' & Ets & Hp & Hpost).
    { destruct (t ++ post) as [|c s']; [done|].
      destruct (p c) eqn:Hp; [|done]. injection Hm as Hg _. eauto. }
    assert (t <> []) as Hne.
    { intros ->. simpl in Ets. pose proof (suffix_length _ _ (g_suffix s')) as Hl.
      rewrite Hpost, Ets in Hl. simpl in Hl. lia. }
    rewrite take_app_length.
    replace (drop (length pre + length t) (pre ++ t ++ post)) with post
      by (by rewrite app_assoc, <- length_app, drop_app_length).
    apply Forall_app in Hs as [Hs1 Hs2]. apply Forall_app in Hs2 as [_ Hs3].
    assert (Forall Q (pre ++ rep ++ replace_all n re rep post)) as Hall.
    { apply Forall_app. split.
      - apply Forall_forall. intros x Hx.
        apply list_elem_of_split in Hx as (a & b & ->).
        apply Forall_app in Hs1 as [_ Hs1]. apply Forall_cons in Hs1 as [Hq _].
        apply Hq. specialize (Hpre a (x :: b) eq_refl).
        rewrite here in Hpre. simpl in Hpre.
        destruct (p x); [by discriminate (Hpre ltac:(done))|done].
      - apply Forall_app. split; [done|]. apply IH; [|done].
        rewrite !length_app in Hn. destruct t; [done|]. simpl in Hn. lia. }
    by destruct t.
  - apply exec_none_clean in E.
    rewrite Forall_forall in E, Hs. apply Forall_forall. auto.
Qed.
End ReplaceAll.

(** The fuel of [replace_all] is not observable: any amount above the
    length of the string gives the same text. *)
Lemma replace_all_fuel re rep : forall n m s,
  length s < n -> length s < m ->
  replace_all n re rep s = replace_all m re rep s.
Proof.
  induction n as [|n IH]; intros m s Hn Hm; [lia|].
  destruct m as [|m]; [lia|]. simpl.
  destruct (exec re s) as [r|] eqn:E; [|done].
  apply exec_at_Some in E as (pre & t & post & -> & Hi & Ht & _ & _).
  simpl in Hi. rewrite Hi, Ht.
  replace (drop (length pre + length t) (pre ++ t ++ post)) with post
    by (by rewrite app_assoc, <- length_app, drop_app_length).
  rewrite !length_app in Hn, Hm. destruct t as [|c t].
  - destruct post as [|c post]; [done|]. simpl in Hn, Hm.
    do 3 f_equal. apply IH; lia.
  - simpl in Hn, Hm. do 2 f_equal. apply IH; lia.
Qed.

Lemma here_slugStripRe s :
  match_here slugStripRe s =
    match s with
    | c :: s' => if not_slug_input c then Some (s', ∅) else None
    | [] => None
    end.
Proof. by destruct s. Qed.

Lemma here_slugSpaceRe s :
  match_here slugSpaceRe s =
    match s with
    | c :: s' => if is_space c then Some (drop_while is_space s', ∅) else None
    | [] => None
    end.
Proof.
  unfold match_here. destruct s as [|c s]; [done|]. simpl re_body.
  destruct (is_space c) eqn:E.
  - by apply rmatch_plus_cls.
  - apply rmatch_plus_cls_fail. done.
Qed.

Lemma drop_while_suffix p s : drop_while p s `suffix_of` s.
Proof. exists (take_while p s). by rewrite take_while_drop_while. Qed.

(** ** The slug *)

Ltac char_arith :=
  unfold slug_char, not_slug_input, is_space, is_line_terminator, dot, between in *;
  repeat progress
    (rewrite ?orb_true_iff, ?orb_false_iff, ?andb_true_iff, ?andb_false_iff,
       ?negb_true_iff, ?negb_false_iff, ?N.leb_le, ?N.leb_gt, ?N.eqb_eq,
       ?N.eqb_neq in *);
  lia.

Lemma slug_char_kept c :
  not_slug_input c = false -> is_space c = false -> slug_char c = true.
Proof. intros H1 H2. char_arith. Qed.

Lemma slug_char_clean c :
  slug_char c = true -> not_slug_input c = false /\ is_space c = false.
Proof. intros H. split; char_arith. Qed.

Lemma toSlug_chars x : Forall (fun c => slug_char c = true) (toSlug x).
Proof.
  unfold toSlug, replace. simpl re_global. cbv iota.
  assert (Forall (fun c => not_slug_input c = false)
            (replace_all (S (length x)) slugStripRe [] x)) as H1.
  { apply (replace_all_chars slugStripRe not_slug_input (fun s => s));
      [done|apply here_slugStripRe|constructor|lia|].
    apply Forall_forall. auto. }
  apply (replace_all_chars slugSpaceRe is_space (drop_while is_space));
    [apply drop_while_suffix|apply here_slugSpaceRe| |lia|].
  - repeat constructor.
  - eapply Forall_impl; [exact H1|]. intros c ??. by apply slug_char_kept.
Qed.

(** C8. Slugging a slug changes nothing, and every character of a slug is
    an ASCII letter, a digit or an underscore. *)
Theorem C8_toSlug_idempotent_and_safe (x : jsstring) :
  toSlug (toSlug x) = toSlug x /\ Forall (fun c => slug_char c = true) (toSlug x).
Proof.
  split; [|apply toSlug_chars].
  pose proof (toSlug_chars x) as H. set (v := toSlug x) in *.
  assert (Forall (fun c => not_slug_input c = false) v) as H1
    by (eapply Forall_impl; [exact H|]; intros c Hc; by apply slug_char_clean).
  assert (Forall (fun c => is_space c = false) v) as H2
    by (eapply Forall_impl; [exact H|]; intros c Hc; by apply slug_char_clean).
  unfold toSlug, replace. simpl re_global. cbv iota.
  rewrite (replace_all_clean slugStripRe not_slug_input (fun s => s)
             here_slugStripRe _ _ _ H1).
  apply (replace_all_clean slugSpaceRe is_space (drop_while is_space)
           here_slugSpaceRe _ _ _ H2).
Qed.

(** ** The patterns of the parser *)

Lemma rmatch_Cat ic r1 r2 s cs k :
  rmatch ic (Cat r1 r2) s cs k =
    rmatch ic r1 s cs (fun s' cs' => rmatch ic r2 s' cs' k).
Proof. done. Qed.

Lemma rmatch_Lits ic r : forall l s cs k,
  rmatch ic (Lits l r) s cs k =
    if lits_match ic l s then rmatch ic r (drop (length l) s) cs k else None.
Proof.
  induction l as [|a l IH]; intros s cs k; [done|].
  destruct s as [|b s]; [done|]. simpl. destruct (char_eq ic a b); [apply IH|done].
Qed.

Lemma lits_match_true ic : forall pat s,
  lits_match ic pat s = true ->
  exists kw, s = kw ++ drop (length pat) s /\
             Forall2 (fun x y => char_eq ic y x = true) kw pat.
Proof.
  induction pat as [|a pat IH]; intros s H.
  - exists []. by split; [|constructor].
  - destruct s as [|b s]; [done|]. simpl in H.
    apply andb_true_iff in H as [Hab H]. apply IH in H as (kw & Hs & Hkw).
    exists (b :: kw). simpl. split; [by f_equal|by constructor].
Qed.

Lemma lits_match_intro ic : forall pat kw t,
  Forall2 (fun x y => char_eq ic y x = true) kw pat ->
  lits_match ic pat (kw ++ t) = true.
Proof.
  intros pat kw t H. induction H as [|x y kw pat Hxy _ IH]; simpl.
  - by destruct t.
  - by rewrite Hxy, IH.
Qed.

Lemma ci_eq_char_eq kw pat :
  ci_eq kw pat <-> Forall2 (fun x y => char_eq true y x = true) kw pat.
Proof.
  unfold ci_eq, char_eq.
  split; intros H; eapply Forall2_impl; try exact H; simpl; intros x y.
  - intros ->. apply N.eqb_refl.
  - intros E. by apply N.eqb_eq in E.
Qed.

Lemma same_char_eq kw pat :
  Forall2 (fun x y => char_eq false y x = true) kw pat -> kw = pat.
Proof.
  induction 1 as [|x y kw pat E _ IH]; [done|].
  apply N.eqb_eq in E. by subst.
Qed.

(** A group around a greedy class, at the end of a pattern. *)
Lemma rmatch_group_star_cls ic i p s cs :
  rmatch ic (Group i (Star (Cls p))) s cs (fun s' cs' => Some (s', cs')) =
    Some (drop_while p s, <[i := take_while p s]> cs).
Proof.
  change (rmatch ic (Star (Cls p)) s cs
            (fun s' cs' => Some (s', <[i := take (length s - length s') s]> cs'))
          = Some (drop_while p s, <[i := take_while p s]> cs)).
  apply rmatch_star_cls. by rewrite take_sub_drop_while.
Qed.

Lemma here_source kw c t :
  ci_eq kw (js "Source:") -> is_space c = true ->
  match_here sourcePathRe (kw ++ c :: t) =
    Some (drop_while dot (drop_while is_space t),
          <[1 := take_while dot (drop_while is_space t)]> ∅).
Proof.
  intros Hkw Hc. unfold match_here, sourcePathRe, sourceBody. cbn [re_body re_icase].
  rewrite rmatch_Lits, lits_match_intro by (by apply ci_eq_char_eq).
  rewrite <- (Forall2_length _ _ _ Hkw), drop_app_length, rmatch_Cat.
  apply rmatch_plus_cls; [done|]. apply rmatch_group_star_cls.
Qed.

Lemma here_source_none s : ~ source_start s -> match_here sourcePathRe s = None.
Proof.
  intros Hs. unfold match_here, sourcePathRe, sourceBody. cbn [re_body re_icase].
  rewrite rmatch_Lits. destruct (lits_match _ _ s) eqn:E; [|done].
  apply lits_match_true in E as (kw & Es & Hkw). apply ci_eq_char_eq in Hkw.
  rewrite rmatch_Cat. apply rmatch_plus_cls_fail.
  destruct (drop _ s) as [|c t] eqn:Ed; [done|].
  destruct (is_space c) eqn:Hc; [|done].
  destruct Hs. by exists kw, c, t.
Qed.

Lemma here_heading t :
  match_here headingRe (js "# " ++ t) =
    Some (drop_while dot t, <[1 := take_while dot t]> ∅).
Proof.
  unfold match_here, headingRe. cbn [re_body re_icase].
  rewrite rmatch_Lits. apply rmatch_group_star_cls.
Qed.

Lemma here_heading_none s :
  ~ (exists t, s = js "# " ++ t) -> match_here headingRe s = None.
Proof.
  intros Hs. unfold match_here, headingRe. cbn [re_body re_icase].
  rewrite rmatch_Lits. destruct (lits_match _ _ s) eqn:E; [|done].
  apply lits_match_true in E as (kw & Es & Hkw). apply same_char_eq in Hkw.
  destruct Hs. exists (drop (length (js "# ")) s). by subst kw.
Qed.

Lemma exec_heading s :
  (occurs (js "# ") s -> exists m, exec headingRe s = Some m) /\
  (~ occurs (js "# ") s -> exec headingRe s = None).
Proof.
  split.
  - intros (a & b & ->). destruct (exec headingRe _) as [m|] eqn:E; [eauto|].
    pose proof (exec_at_None _ _ _ E a (js "# " ++ b) eq_refl) as H.
    by rewrite here_heading in H.
  - intros H. apply exec_at_nowhere. intros a b ->. apply here_heading_none.
    intros [t ->]. apply H. by exists a, t.
Qed.

Lemma drop_while_run (p : char -> bool) a b :
  Forall (fun c => p c = true) a ->
  match b with c :: _ => p c = false | [] => True end ->
  drop_while p (a ++ b) = b /\ take_while p (a ++ b) = a.
Proof.
  intros Ha Hb. induction Ha as [|c a Hc _ IH]; simpl.
  - destruct b as [|c b]; [done|]. simpl. by rewrite Hb.
  - rewrite Hc. destruct IH as [-> ->]. done.
Qed.

Lemma source_startP s : source_start s <-> source_startb s = true.
Proof.
  unfold source_startb. split.
  - intros (kw & c & t & -> & Hkw & Hc).
    rewrite lits_match_intro by (by apply ci_eq_char_eq).
    by rewrite <- (Forall2_length _ _ _ Hkw), drop_app_length.
  - intros H. apply andb_true_iff in H as [H1 H2].
    apply lits_match_true in H1 as (kw & Es & Hkw).
    destruct (drop _ s) as [|c t]; [done|].
    exists kw, c, t. by rewrite <- ci_eq_char_eq in Hkw.
Qed.

Lemma first_source_start_check pre rest :
  forallb (fun i => negb (source_startb (drop i (pre ++ rest))))
    (seq 0 (length pre)) = true ->
  forall a b, pre = a ++ b -> b <> [] -> ~ source_start (b ++ rest).
Proof.
  intros H a b -> Hb Hs. apply source_startP in Hs.
  rewrite forallb_forall in H. specialize (H (length a)).
  rewrite <- app_assoc, drop_app_length, Hs in H.
  assert (In (length a) (seq 0 (length (a ++ b)))) as Hin.
  { apply in_seq. rewrite length_app. destruct b; [done|]. simpl. lia. }
  by specialize (H Hin).
Qed.

(** ** The parser *)

Lemma parseNote_fallback npath note body :
  note_textContent note = Some body ->
  exec sourcePathRe body = None ->
  parseNote npath note =
    Ok (ParsedNote (title_or_filename npath note)
          (match exec headingRe (join (js ",") (take 3 (split 10%N body))) with
           | Some _ => HTrue
           | None => HText (title_or_filename npath note)
           end)
          body
          (match note_annotations note with
           | Some l => join (js ", ") (map url l)
           | None => js "N/A"
           end)
          (join (js ", ") (map name (default [] (note_labels note))))
          (toSlug (title_or_filename npath note))).
Proof. intros H1 H2. unfold parseNote. by rewrite H1, H2. Qed.

Lemma parseNote_found npath note body m :
  note_textContent note = Some body ->
  exec sourcePathRe body = Some m ->
  parseNote npath note =
    Ok (ParsedNote (title_or_filename npath note)
          (match exec headingRe
                   (join (js ",")
                      (take 3 (split 10%N (replace sourceStripRe [] body)))) with
           | Some _ => HTrue
           | None => HText (title_or_filename npath note)
           end)
          (replace sourceStripRe [] body)
          (group m 1)
          (join (js ", ") (map name (default [] (note_labels note))))
          (toSlug (title_or_filename npath note))).
Proof. intros H1 H2. unfold parseNote. by rewrite H1, H2. Qed.

(** C3, as the parser has it.  When the body holds "Source:" (in any case)
    followed by at least one whitespace character, the source is the text
    after that run of whitespace up to the next line terminator, and the
    content is the body without the span from "Source:" to the end of that
    text, at the first such place: what stands before "Source:" on its line,
    the line break and any later occurrence stay. *)
Theorem C3_source_span_removed npath note pre kw ws cap rest :
  note_textContent note = Some (pre ++ kw ++ ws ++ cap ++ rest) ->
  ci_eq kw (js "Source:") ->
  ws <> [] -> Forall (fun c => is_space c = true) ws ->
  Forall (fun c => is_line_terminator c = false) cap ->
  match cap ++ rest with c :: _ => is_space c = false | [] => True end ->
  match rest with c :: _ => is_line_terminator c = true | [] => True end ->
  (forall a b, pre = a ++ b -> b <> [] ->
     ~ source_start (b ++ kw ++ ws ++ cap ++ rest)) ->
  exists p, parseNote npath note = Ok p /\
            source p = cap /\ content p = pre ++ rest.
Proof.
  intros Hbody Hkw Hne Hws Hcap Hhead Hrest Hfirst.
  destruct ws as [|c ws]; [done|]. apply Forall_cons in Hws as [Hc Hws].
  assert (match_here sourcePathRe (kw ++ (c :: ws) ++ cap ++ rest)
          = Some (rest, <[1 := cap]> ∅)) as Hhere.
  { simpl. rewrite here_source by done.
    destruct (drop_while_run is_space ws (cap ++ rest) Hws Hhead) as [-> _].
    assert (Forall (fun c => dot c = true) cap) as Hdot
      by (eapply Forall_impl; [exact Hcap|]; intros x Hx; unfold dot; by rewrite Hx).
    assert (match rest with c :: _ => dot c = false | [] => True end) as Hr
      by (destruct rest; [done|]; unfold dot; by rewrite Hrest).
    by destruct (drop_while_run dot cap rest Hdot Hr) as [-> ->]. }
  assert (exec sourcePathRe (pre ++ kw ++ (c :: ws) ++ cap ++ rest)
          = Some (MatchResult (length pre) (kw ++ (c :: ws) ++ cap) (<[1 := cap]> ∅)))
    as Hexec.
  { unfold exec. rewrite (exec_at_first _ pre _ 0 rest (<[1 := cap]> ∅)); [| |done].
    - do 2 f_equal.
      replace (kw ++ (c :: ws) ++ cap ++ rest) with ((kw ++ (c :: ws) ++ cap) ++ rest)
        by (by rewrite <- !app_assoc).
      apply take_sub_suffix.
    - intros a b Hab Hb. apply here_source_none. by apply (Hfirst a). }
  rewrite (parseNote_found _ _ _ _ Hbody Hexec). eexists. split; [done|].
  cbn [source content]. split.
  { unfold group. cbn [m_groups]. by rewrite lookup_insert_eq. }
  unfold replace. cbn [re_global sourceStripRe].
  change (exec sourceStripRe) with (exec sourcePathRe). rewrite Hexec.
  cbn [m_index m_text]. rewrite take_app_length. f_equal.
  replace (pre ++ kw ++ (c :: ws) ++ cap ++ rest)
    with ((pre ++ kw ++ (c :: ws) ++ cap) ++ rest) by (by rewrite <- !app_assoc).
  by rewrite <- length_app, drop_app_length.
Qed.

Lemma C3_source_span_removed_witness :
  exists p,
    parseNote (js "./keep/n.json")
      (RawNote None (Some (js "see Source: http://x.com" ++ [10%N] ++ js "hello"))
         None None) = Ok p /\
    source p = js "http://x.com" /\ content p = js "see " ++ [10%N] ++ js "hello".
Proof.
  apply (C3_source_span_removed _ _ (js "see ") (js "Source:") (js " ")
           (js "http://x.com") (10%N :: js "hello")).
  - reflexivity.
  - repeat constructor.
  - done.
  - repeat constructor.
  - repeat constructor.
  - reflexivity.
  - reflexivity.
  - apply first_source_start_check. vm_compute. reflexivity.
Defined.

(** C3, as stated, fails: the text before "Source:" and the line break stay
    in the content, and a second "Source:" line is still there. *)
Lemma C3_second_source_line_remains :
  exists p,
    parseNote (js "./keep/n.json")
      (RawNote None (Some (js "see Source: a" ++ [10%N] ++ js "Source: b"))
         None None) = Ok p /\
    source p = js "a" /\
    content p = js "see " ++ [10%N] ++ js "Source: b" /\
    source_start (drop 5 (content p)).
Proof.
  eexists. split; [vm_compute; reflexivity|].
  split; [reflexivity|]. split; [reflexivity|].
  apply source_startP. vm_compute. reflexivity.
Qed.

(** "Source:" with no whitespace after it is not a source line for the
    parser. *)
Lemma source_without_space_ignored :
  exists p,
    parseNote (js "./keep/n.json")
      (RawNote None (Some (js "Source:http://x.com")) None None) = Ok p /\
    source p = js "N/A" /\ content p = js "Source:http://x.com".
Proof. eexists. split; [vm_compute; reflexivity|]. split; reflexivity. Qed.

Lemma no_source_start_check s :
  forallb (fun i => negb (source_startb (drop i s))) (seq 0 (S (length s))) = true ->
  forall a b, s = a ++ b -> ~ source_start b.
Proof.
  intros H a b -> Hs. apply source_startP in Hs.
  rewrite forallb_forall in H. specialize (H (length a)).
  rewrite drop_app_length, Hs in H.
  assert (In (length a) (seq 0 (S (length (a ++ b))))) as Hin
    by (apply in_seq; rewrite length_app; lia).
  by specialize (H Hin).
Qed.

(** C4. When no place of the body begins a source match, the source is the
    url values of [annotations] joined with ", " when the field is there and
    "N/A" when it is not, and the content is the body as it was. *)
Theorem C4_source_fallback npath note body :
  note_textContent note = Some body ->
  (forall a b, body = a ++ b -> ~ source_start b) ->
  exists p, parseNote npath note = Ok p /\
    source p = match note_annotations note with
               | Some l => join (js ", ") (map url l)
               | None => js "N/A"
               end /\
    content p = body.
Proof.
  intros Hbody Hno.
  assert (exec sourcePathRe body = None) as Hexec.
  { apply exec_at_nowhere. intros a b Hab. apply here_source_none. by apply (Hno a). }
  rewrite (parseNote_fallback _ _ _ Hbody Hexec). by eexists.
Qed.

Lemma C4_source_fallback_witness :
  exists p,
    parseNote (js "./keep/n.json")
      (RawNote None (Some (js "hello")) None
         (Some [Annotation (js "a"); Annotation (js "b")])) = Ok p /\
    source p = js "a, b" /\ content p = js "hello".
Proof.
  apply (C4_source_fallback _
           (RawNote None (Some (js "hello")) None
              (Some [Annotation (js "a"); Annotation (js "b")])) (js "hello")).
  - reflexivity.
  - apply no_source_start_check. vm_compute. reflexivity.
Defined.

Lemma source_fallback_literal :
  exists p,
    parseNote (js "./keep/n.json") (RawNote None (Some (js "hello")) None None)
      = Ok p /\ source p = js "N/A".
Proof. eexists. split; [vm_compute; reflexivity|reflexivity]. Qed.

(** C5, at a note without a title whose file name holds ".json" twice: the
    first ".json" of the base name is removed, not the extension. *)
Theorem C5_first_json_removed_not_extension :
  exists p,
    parseNote (js "./keep/a.json.b.json") (RawNote None (Some (js "x")) None None)
      = Ok p /\
    title p = js "a.b.json" /\ title p <> js "a.json.b".
Proof. eexists. split; [vm_compute; reflexivity|]. split; [reflexivity|done]. Qed.

Lemma title_field_used npath note c t :
  note_title note = Some (c :: t) -> title_or_filename npath note = c :: t.
Proof. unfold title_or_filename. by intros ->. Qed.

Lemma starts_with_app pat rest : starts_with pat (pat ++ rest) = true.
Proof. induction pat as [|c pat IH]; simpl; [done|]. by rewrite N.eqb_refl. Qed.

Lemma replace_str_first pat rep rest : forall pre,
  pat <> [] ->
  (forall a b, pre = a ++ b -> b <> [] -> starts_with pat (b ++ pat ++ rest) = false) ->
  replace_str pat rep (pre ++ pat ++ rest) = pre ++ rep ++ rest.
Proof.
  intros pre Hpat. induction pre as [|c pre IH]; intros Hfirst.
  - simpl. destruct pat as [|p0 pat]; [done|].
    change (replace_str (p0 :: pat) rep ((p0 :: pat) ++ rest))
      with (if starts_with (p0 :: pat) ((p0 :: pat) ++ rest)
            then rep ++ drop (length (p0 :: pat)) ((p0 :: pat) ++ rest)
            else p0 :: replace_str (p0 :: pat) rep (pat ++ rest)).
    by rewrite starts_with_app, drop_app_length.
  - pose proof (Hfirst [] (c :: pre) eq_refl ltac:(done)) as E.
    simpl in *. rewrite E. f_equal. apply IH. intros a b -> Hb.
    by apply (Hfirst (c :: a) b).
Qed.

Lemma until_slash_app a b :
  Forall (fun c => c <> 47%N) a -> until_slash (a ++ 47%N :: b) = a.
Proof.
  induction 1 as [|c a Hc _ IH]; simpl; [done|].
  apply N.eqb_neq in Hc. by rewrite Hc, IH.
Qed.

Lemma basename_of_file dir name :
  name <> [] -> Forall (fun c => c <> 47%N) name ->
  basename (dir ++ 47%N :: name) = name.
Proof.
  intros Hne Hname. unfold basename.
  rewrite rev_app_distr. simpl rev. rewrite <- app_assoc. simpl app.
  assert (Forall (fun c => c <> 47%N) (rev name)) as Hrev
    by (by apply Forall_rev).
  assert (drop_slashes (rev name ++ 47%N :: rev dir) = rev name ++ 47%N :: rev dir)
    as ->.
  { destruct (rev name) as [|c r] eqn:E.
    - apply (f_equal (@rev N)) in E. rewrite rev_involutive in E. done.
    - apply Forall_cons in Hrev as [Hc _]. apply N.eqb_neq in Hc. simpl. by rewrite Hc. }
  by rewrite until_slash_app, rev_involutive.
Qed.

(** Where ".json" first occurs as the extension, the fallback is the base
    name without it. *)
Lemma title_fallback_stem dir stem t :
  Forall (fun c => c <> 47%N) stem ->
  (forall a b, stem = a ++ b -> b <> [] ->
     starts_with (js ".json") (b ++ js ".json") = false) ->
  t = None \/ t = Some [] ->
  title_or_filename (dir ++ 47%N :: stem ++ js ".json") (RawNote t None None None)
    = stem.
Proof.
  intros Hstem Hfirst Ht.
  assert (title_or_filename (dir ++ 47%N :: stem ++ js ".json") (RawNote t None None None)
          = replace_str (js ".json") [] (basename (dir ++ 47%N :: stem ++ js ".json")))
    as -> by (by destruct Ht as [-> | ->]).
  rewrite basename_of_file.
  - rewrite <- (app_nil_r (js ".json")) at 2.
    rewrite replace_str_first; [by rewrite app_nil_r|done|].
    intros a b Hab Hb. rewrite app_nil_r. by apply (Hfirst a).
  - by destruct stem.
  - apply Forall_app. split; [done|]. repeat constructor; done.
Qed.

Lemma title_of_plain_file_name :
  title_or_filename (js "./keep/My note.json") (RawNote (Some []) None None None)
    = js "My note".
Proof. vm_compute. reflexivity. Qed.

Lemma replace_no_match body :
  exec sourcePathRe body = None -> replace sourceStripRe [] body = body.
Proof.
  intros H. unfold replace. cbn [re_global sourceStripRe].
  change (exec sourceStripRe) with (exec sourcePathRe). by rewrite H.
Qed.

(** C6. The content of the parsed note is the body after the one replace of
    the source pattern (the body itself when the pattern has no match), and
    the title is the title field or the fallback.  The heading is [true]
    exactly when "# " appears in the first three lines of that content
    joined with commas - the text after "# " is what the group of the
    pattern takes, and may be empty - and the title otherwise. *)
Theorem C6_heading_detection npath note body :
  note_textContent note = Some body ->
  exists p, parseNote npath note = Ok p /\
    title p = title_or_filename npath note /\
    content p = replace sourceStripRe [] body /\
    ((forall a b, body = a ++ b -> ~ source_start b) -> content p = body) /\
    let joined :=
      join (js ",") (take 3 (split 10%N (replace sourceStripRe [] body))) in
    (occurs (js "# ") joined <-> heading p = HTrue) /\
    (~ occurs (js "# ") joined ->
     heading p = HText (title_or_filename npath note)).
Proof.
  intros Hbody.
  assert (forall s t,
            (occurs (js "# ") s <->
             match exec headingRe s with Some _ => HTrue | None => HText t end = HTrue) /\
            (~ occurs (js "# ") s ->
             match exec headingRe s with Some _ => HTrue | None => HText t end = HText t))
    as Hhd.
  { intros s t. destruct (exec_heading s) as [H1 H2]. split; [split|]; intros H.
    - by destruct (H1 H) as [m ->].
    - destruct (exec headingRe s) as [m|] eqn:E; [|done].
      apply exec_at_Some in E as (pre & tx & post & -> & _ & _ & Hm & _).
      unfold match_here, headingRe in Hm. cbn [re_body re_icase] in Hm.
      rewrite rmatch_Lits in Hm.
      destruct (lits_match false (js "# ") (tx ++ post)) eqn:El; [|done].
      apply lits_match_true in El as (kw & Es & Hkw). apply same_char_eq in Hkw.
      subst kw. rewrite Es.
      by exists pre, (drop (length (js "# ")) (tx ++ post)).
    - by rewrite (H2 H). }
  destruct (exec sourcePathRe body) as [m|] eqn:Hexec.
  - rewrite (parseNote_found _ _ _ _ Hbody Hexec). eexists. split; [done|].
    cbn [title content heading]. split; [done|]. split; [done|]. split; [|apply Hhd].
    intros Hno. apply exec_at_Some in Hexec as (pre & tx & post & -> & _ & _ & Hm & _).
    rewrite here_source_none in Hm; [done|]. by apply (Hno pre).
  - rewrite (parseNote_fallback _ _ _ Hbody Hexec). eexists. split; [done|].
    cbn [title content heading]. rewrite (replace_no_match _ Hexec).
    split; [done|]. split; [done|]. split; [done|]. apply Hhd.
Qed.

Lemma C6_heading_detection_witness :
  exists p,
    parseNote (js "./keep/n.json")
      (RawNote (Some (js "Foo"))
         (Some (js "# Title" ++ [10%N] ++ js "body text" ++ [10%N]
                  ++ js "Source: http://x.com")) None None) = Ok p /\
    title p = js "Foo" /\
    content p = js "# Title" ++ [10%N] ++ js "body text" ++ [10%N] /\
    heading p = HTrue.
Proof.
  destruct (C6_heading_detection (js "./keep/n.json")
              (RawNote (Some (js "Foo"))
                 (Some (js "# Title" ++ [10%N] ++ js "body text" ++ [10%N]
                          ++ js "Source: http://x.com")) None None)
              (js "# Title" ++ [10%N] ++ js "body text" ++ [10%N]
                 ++ js "Source: http://x.com") eq_refl)
    as (p & Hp & Ht & Hc & _ & Hh & _).
  exists p. split; [exact Hp|]. split; [exact Ht|]. split; [exact Hc|].
  apply Hh. exists [], (js "Title,body text,"). reflexivity.
Defined.

Lemma heading_examples :
  (exists p, parseNote (js "./keep/n.json")
               (RawNote (Some (js "Foo"))
                  (Some (js "# Title" ++ [10%N] ++ js "body text")) None None) = Ok p /\
             heading p = HTrue) /\
  (exists p, parseNote (js "./keep/n.json")
               (RawNote (Some (js "Foo")) (Some (js "plain text")) None None) = Ok p /\
             heading p = HText (js "Foo")) /\
  (exists p, parseNote (js "./keep/n.json")
               (RawNote (Some (js "Foo"))
                  (Some (js "a" ++ [10%N] ++ js "b" ++ [10%N] ++ js "c" ++ [10%N]
                           ++ js "# late")) None None) = Ok p /\
             heading p = HText (js "Foo")).
Proof.
  repeat split; eexists; (split; [vm_compute; reflexivity|reflexivity]).
Qed.

(** ** The template *)

Lemma split_nonempty sep s : split sep s <> [].
Proof.
  destruct s as [|c s]; [done|]. simpl. destruct (c =? sep)%N; [done|].
  by destruct (split sep s).
Qed.

Lemma split_app_sep sep a b :
  split sep (a ++ sep :: b) = split sep a ++ split sep b.
Proof.
  induction a as [|c a IH]; simpl.
  - by rewrite N.eqb_refl.
  - destruct (c =? sep)%N; [by rewrite IH|]. rewrite IH.
    pose proof (split_nonempty sep a). by destruct (split sep a).
Qed.

Lemma split_blank a b :
  split 10%N (a ++ [10%N; 10%N] ++ b) = split 10%N a ++ [[]] ++ split 10%N b.
Proof. simpl. by rewrite split_app_sep. Qed.

Lemma split_footer c s l :
  split 10%N (c ++ [10%N; 10%N] ++ js "----" ++ [10%N] ++ s ++ [10%N; 10%N] ++ l)
  = split 10%N c ++ [[]; js "----"] ++ split 10%N s ++ [[]] ++ split 10%N l.
Proof.
  rewrite split_blank.
  change (js "----" ++ [10%N] ++ s ++ [10%N; 10%N] ++ l)
    with (js "----" ++ 10%N :: (s ++ [10%N; 10%N] ++ l)).
  by rewrite split_app_sep, split_blank.
Qed.

(** C7, as the templater has it.  The lines of the result are: the heading
    line and a blank line unless the heading is [true]; the lines of the
    content; a blank line; the rule; the source line; a blank line; the
    labels line.  The function is total. *)
Theorem C7_template_lines (note : parsed_note) :
  split 10%N (notePdfTpl note) =
    match heading note with
    | HTrue => []
    | HText h => split 10%N (js "# " ++ h) ++ [[]]
    end ++ split 10%N (content note)
        ++ [[]; js "----"] ++ split 10%N (js "Source: " ++ source note)
        ++ [[]] ++ split 10%N (js "Labels: " ++ labels note).
Proof.
  unfold notePdfTpl.
  generalize (content note) (source note) (labels note). intros c s l.
  destruct (heading note) as [|h].
  - exact (split_footer c (js "Source: " ++ s) (js "Labels: " ++ l)).
  - rewrite <- !app_assoc, (app_assoc (js "# ") h), split_blank.
    rewrite <- ?app_assoc. do 2 f_equal.
    exact (split_footer c (js "Source: " ++ s) (js "Labels: " ++ l)).
Qed.

(** C7, as stated, fails: a blank line stands between the content and the
    rule. *)
Lemma C7_blank_line_before_rule :
  let note := ParsedNote (js "T") HTrue (js "body") (js "s") (js "l") (js "T") in
  split 10%N (notePdfTpl note)
    = [js "body"; []; js "----"; js "Source: s"; []; js "Labels: l"] /\
  split 10%N (notePdfTpl note) <> template_lines_as_worded note.
Proof. split; [reflexivity|done]. Qed.

(** ** The loop of [main] *)

Lemma write_all_one E p d w :
  write_all E [(p, d)] w =
    if writable E p then (Ok tt, set_file p d w) else (Throw (IOError p), w).
Proof.
  cbn [write_all]. unfold mbind, io_bind, bind, fs_write, ret.
  by destruct (writable E p).
Qed.

(** Without a front matter, [mdToPdf] renders and writes the PDF at the
    [dest] of the call. *)
Lemma await_unfenced E c dest w :
  fenced c = false ->
  await E (MdToPdf c dest) w =
    match render E c with
    | None => (Throw RenderError, w)
    | Some pdf =>
        if writable E dest then (Ok tt, set_file dest pdf w)
        else (Throw (IOError dest), w)
    end.
Proof.
  intros H. unfold await, mdToPdf_writes. rewrite H.
  destruct (render E c) as [pdf|]; [apply write_all_one|done].
Qed.

(** A template that begins with the heading line has no front matter. *)
Lemma template_with_heading_unfenced pnote h :
  heading pnote = HText h -> fenced (notePdfTpl pnote) = false.
Proof. intros H. unfold notePdfTpl. by rewrite H. Qed.

Lemma convert_cases E npath w :
  convert E npath w =
    match files w !! npath with
    | None => (Throw (IOError npath), w)
    | Some data =>
        match JSON_parse E data with
        | None => (Throw SyntaxError, w)
        | Some note =>
            match parseNote npath note with
            | Throw e => (Throw e, w)
            | Ok pnote =>
                match await E (noteToPdf (filename pnote) (notePdfTpl pnote)) w with
                | (Throw e, w1) => (Throw e, w1)
                | (Ok _, w1) =>
                    if writable E (md_dest (filename pnote))
                    then (Ok tt, set_file (md_dest (filename pnote)) (content pnote) w1)
                    else (Throw (IOError (md_dest (filename pnote))), w1)
                end
            end
        end
    end.
Proof.
  unfold convert, openNote, readFile, mbind, io_bind, bind, lift.
  destruct (files w !! npath) as [data|]; [|done].
  destruct (JSON_parse E data) as [note|]; [|done]. unfold ret.
  destruct (parseNote npath note) as [pnote|e]; [|done].
  destruct (await E (noteToPdf _ _) w) as [[[]|e] w1]; [|done].
  unfold noteSaveToMd, await, fs_write.
  by destruct (writable E (md_dest (filename pnote))).
Qed.

Lemma process_note_new E npath processed count w :
  includes npath processed = false ->
  process_note E npath (processed, count) w =
    match convert E npath (snd (console_log (LogProcessing npath) w)) with
    | (Ok _, w1) => (Ok (processed ++ [npath], S count), w1)
    | (Throw e, w1) =>
        (Ok (processed, count), snd (console_log (LogError npath e) w1))
    end.
Proof.
  intros H. unfold process_note. rewrite H. simpl negb. cbv iota.
  unfold mbind, io_bind, bind, try_catch, ret. simpl.
  by destruct (convert E npath _) as [[[]|e] w1].
Qed.

Lemma process_note_skip E npath processed count w :
  includes npath processed = true ->
  process_note E npath (processed, count) w =
    (Ok (processed, count), snd (console_log (LogSkipping npath) w)).
Proof. intros H. unfold process_note. by rewrite H. Qed.

(** No round of the loop throws. *)
Lemma process_note_total E npath st w :
  exists st' w', process_note E npath st w = (Ok st', w').
Proof.
  destruct st as [processed count].
  destruct (includes npath processed) eqn:H.
  - rewrite process_note_skip by done. eauto.
  - rewrite process_note_new by done.
    destruct (convert E npath _) as [[[]|e] w1]; eauto.
Qed.


(** C1. For a note that is not in the working set: when a stage of its
    conversion throws, the error is caught and logged, the working set and
    the counter stay as they were and the loop goes on with the next note;
    when the conversion completes, the path is appended to the working set,
    the counter grows by one and the loop goes on. *)
Theorem C1_error_isolation E npath rest processed count w :
  includes npath processed = false ->
  for_notes E (npath :: rest) (processed, count) w =
    match convert E npath (snd (console_log (LogProcessing npath) w)) with
    | (Ok _, w1) => for_notes E rest (processed ++ [npath], S count) w1
    | (Throw e, w1) =>
        for_notes E rest (processed, count)
          (snd (console_log (LogError npath e) w1))
    end.
Proof.
  intros H. cbn [for_notes]. unfold mbind, io_bind, bind.
  rewrite process_note_new by done.
  by destruct (convert E npath _) as [[[]|e] w1].
Qed.

Lemma C1_error_isolation_witness :
  for_notes (demo_env false) [js "./keep/b.json"; js "./keep/a.json"] ([], 0)
    demo_world
  = match convert (demo_env false) (js "./keep/b.json")
            (snd (console_log (LogProcessing (js "./keep/b.json")) demo_world)) with
    | (Ok _, w1) =>
        for_notes (demo_env false) [js "./keep/a.json"]
          ([] ++ [js "./keep/b.json"], 1) w1
    | (Throw e, w1) =>
        for_notes (demo_env false) [js "./keep/a.json"] ([], 0)
          (snd (console_log (LogError (js "./keep/b.json") e) w1))
    end.
Proof. apply C1_error_isolation. reflexivity. Defined.

(** A missing file and a present one: the first is logged as an error and
    left out, the second is converted and counted. *)
Lemma failure_then_success :
  exists w',
    for_notes (demo_env false) [js "./keep/b.json"; js "./keep/a.json"] ([], 0)
      demo_world = (Ok ([js "./keep/a.json"], 1), w') /\
    console w' = [LogProcessing (js "./keep/b.json");
                  LogError (js "./keep/b.json") (IOError (js "./keep/b.json"));
                  LogProcessing (js "./keep/a.json")] /\
    files w' !! js "./generated/My_note.md" = Some (js "hello").
Proof. eexists. split; [vm_compute; reflexivity|]. split; reflexivity. Qed.




(** ** The ledger *)

Lemma join_split sep s : join [sep] (split sep s) = s.
Proof.
  induction s as [|c s IH]; [done|]. simpl.
  pose proof (split_nonempty sep s) as Hne.
  destruct (c =? sep)%N eqn:E.
  - apply N.eqb_eq in E as ->. destruct (split sep s) as [|l ls]; [done|].
    simpl in *. by rewrite IH.
  - destruct (split sep s) as [|l ls]; [done|].
    destruct ls as [|l' ls]; simpl in *; by rewrite <- IH.
Qed.

Lemma getProcessed_present w c :
  files w !! processed_txt = Some c -> getProcessed w = (Ok (split 10%N c), w).
Proof.
  intros H. unfold getProcessed, existsSync, readFile, mbind, io_bind, bind, ret.
  rewrite H. rewrite bool_decide_eq_true_2 by (by eexists). cbn [negb]. by rewrite H.
Qed.

Lemma getProcessed_missing w :
  files w !! processed_txt = None -> getProcessed w = (Ok [], w).
Proof.
  intros H. unfold getProcessed, existsSync, mbind, io_bind, bind, ret.
  rewrite H. rewrite bool_decide_eq_false_2; [done|]. by intros [? ?].
Qed.

Lemma save_load_present E w c :
  files w !! processed_txt = Some c -> writable E processed_txt = true ->
  save_load E w = (Ok tt, w).
Proof.
  intros Hc Hw. unfold save_load, mbind, io_bind, bind.
  rewrite (getProcessed_present _ _ Hc).
  unfold updateProcessed, await, fs_write. rewrite Hw, join_split.
  unfold set_file. rewrite insert_id by done. by destruct w.
Qed.

(** C9, as the ledger has it.  When [processed.txt] exists, [save(load())]
    applied twice leaves it with the contents it had, and loading it again
    gives the list loaded at first, entry for entry; when [processed.txt]
    does not exist, loading gives the empty list. *)
Theorem C9_ledger_round_trip E w :
  (forall c,
     files w !! processed_txt = Some c -> writable E processed_txt = true ->
     exists w2,
       (save_load E;; save_load E) w = (Ok tt, w2) /\
       files w2 !! processed_txt = Some c /\
       fst (getProcessed w2) = fst (getProcessed w) /\
       fst (getProcessed w) = Ok (split 10%N c)) /\
  (files w !! processed_txt = None -> getProcessed w = (Ok [], w)).
Proof.
  split; [|apply getProcessed_missing].
  intros c Hc Hw. exists w. unfold mbind, io_bind, bind.
  rewrite !(save_load_present E w c) by done.
  by rewrite (getProcessed_present _ _ Hc).
Qed.

Lemma C9_ledger_round_trip_witness :
  (exists w2,
     (save_load (demo_env false);; save_load (demo_env false)) ledger_world
       = (Ok tt, w2) /\
     fst (getProcessed w2) = Ok [js "./keep/a.json"; js "./keep/b.json"]) /\
  getProcessed demo_world = (Ok [], demo_world).
Proof.
  split.
  - assert (files ledger_world !! processed_txt
            = Some (js "./keep/a.json" ++ [10%N] ++ js "./keep/b.json")) as Hc
      by (vm_compute; reflexivity).
    destruct (proj1 (C9_ledger_round_trip (demo_env false) ledger_world) _ Hc eq_refl)
      as (w2 & H1 & _ & H2 & H3).
    exists w2. split; [exact H1|]. rewrite H2. exact H3.
  - apply (proj2 (C9_ledger_round_trip (demo_env false) demo_world)). reflexivity.
Defined.

(** C9, as stated, fails where [processed.txt] does not exist: the list
    loaded at first is empty, and after [save(load())] twice the file exists
    and loads as one empty entry. *)
Lemma C9_missing_ledger_gains_entry :
  exists w2,
    getProcessed (World ∅ [] []) = (Ok [], World ∅ [] []) /\
    (save_load (demo_env false);; save_load (demo_env false)) (World ∅ [] [])
      = (Ok tt, w2) /\
    files w2 !! processed_txt = Some [] /\
    getProcessed w2 = (Ok [[]], w2).
Proof.
  eexists. split; [reflexivity|]. split; [vm_compute; reflexivity|].
  split; vm_compute; reflexivity.
Qed.

(** ** The end of [main] *)

Lemma pdf_dest_not_ledger f : pdf_dest f <> processed_txt.
Proof. intros H. apply (f_equal (take 3)) in H. vm_compute in H. discriminate. Qed.

Lemma md_dest_not_ledger f : md_dest f <> processed_txt.
Proof. intros H. apply (f_equal (take 3)) in H. vm_compute in H. discriminate. Qed.

Lemma pdf_dest_generated f : starts_with (js "./generated/") (pdf_dest f) = true.
Proof. apply starts_with_app. Qed.

Lemma md_dest_generated f : starts_with (js "./generated/") (md_dest f) = true.
Proof. apply starts_with_app. Qed.

Lemma write_all_frame E : forall ws w r w',
  write_all E ws w = (r, w') ->
  console w' = console w /\ pending w' = pending w /\
  forall p, p ∉ ws.*1 -> files w' !! p = files w !! p.
Proof.
  induction ws as [|[q d] ws IH]; intros w r w'; cbn [write_all].
  - by intros [= _ <-].
  - unfold mbind, io_bind, bind, fs_write.
    destruct (writable E q); [|by intros [= _ <-]].
    intros H. apply IH in H as (-> & -> & Hf). split; [done|]. split; [done|].
    intros p Hp. apply not_elem_of_cons in Hp as [Hne Hp].
    rewrite Hf by done. cbn [files set_file]. by rewrite lookup_insert_ne.
Qed.

(** What the PDF stage can change: the [dest] of the call, and what a front
    matter makes the renderer write. *)
Lemma await_pdf_frame E c dest w r w' :
  await E (MdToPdf c dest) w = (r, w') ->
  console w' = console w /\ pending w' = pending w /\
  forall p, p <> dest -> never_redirected_to E p -> files w' !! p = files w !! p.
Proof.
  unfold await, mdToPdf_writes. destruct (fenced c).
  - destruct (fenced_render E c dest) as [ws|] eqn:Hws; [|by intros [= _ <-]].
    intros H. apply write_all_frame in H as (? & ? & Hf). split; [done|].
    split; [done|]. intros p Hne Hp. apply Hf. by apply (Hp c dest).
  - destruct (render E c) as [pdf|]; [|by intros [= _ <-]].
    intros H. apply write_all_frame in H as (? & ? & Hf). split; [done|].
    split; [done|]. intros p Hne Hp. apply Hf.
    by intros ->%list_elem_of_singleton.
Qed.

Lemma convert_frame E npath w r w' :
  convert E npath w = (r, w') ->
  console w' = console w /\ pending w' = pending w /\
  forall p, starts_with (js "./generated/") p = false -> never_redirected_to E p ->
            files w' !! p = files w !! p.
Proof.
  rewrite convert_cases.
  destruct (files w !! npath) as [data|]; [|by intros [= _ <-]].
  destruct (JSON_parse E data) as [note|]; [|by intros [= _ <-]].
  destruct (parseNote npath note) as [pnote|e]; [|by intros [= _ <-]].
  assert (forall p, starts_with (js "./generated/") p = false ->
                    p <> pdf_dest (filename pnote) /\ p <> md_dest (filename pnote))
    as Hne.
  { intros p Hp. split; intros ->.
    - by rewrite pdf_dest_generated in Hp.
    - by rewrite md_dest_generated in Hp. }
  destruct (await E (noteToPdf _ _) w) as [[[]|e] w1] eqn:Ha;
    apply await_pdf_frame in Ha as (Hc & Hq & Hf).
  - destruct (writable E (md_dest _)); intros [= _ <-];
      cbn [files set_file pending console];
      (split; [done|]); (split; [done|]); intros p Hp Hr;
      destruct (Hne p Hp) as [H1 H2]; rewrite ?lookup_insert_ne by done; by apply Hf.
  - intros [= _ <-]. split; [done|]. split; [done|]. intros p Hp Hr.
    destruct (Hne p Hp) as [H1 H2]. by apply Hf.
Qed.




(** C2, at a directory with one note and no ledger yet: the note is
    converted and counted, the write of the ledger is requested and not
    awaited, and [process.exit] ends the run before it is carried out.
    [processed.txt] is missing, or empty when the thread pool had opened it;
    it never holds the path of the note. *)
Theorem C2_ledger_write_abandoned (race : bool) :
  exists w',
    main (demo_env race) demo_world = (Ok tt, w') /\
    console w' = [LogProcessing (js "./keep/a.json"); LogCompleted 1] /\
    files w' !! processed_txt = (if race then Some [] else None) /\
    files w' !! processed_txt <> Some (join [10%N] [js "./keep/a.json"]).
Proof.
  destruct race; eexists; (split; [vm_compute; reflexivity|]);
    (split; [reflexivity|]); (split; [vm_compute; reflexivity|]);
    vm_compute; discriminate.
Qed.

(** Awaited, the same request does write the working set. *)
Lemma awaited_ledger_write E processed w :
  writable E processed_txt = true ->
  exists w', await E (updateProcessed processed) w = (Ok tt, w') /\
             files w' !! processed_txt = Some (join [10%N] processed).
Proof.
  intros H. unfold await, updateProcessed, fs_write. rewrite H.
  eexists. split; [done|]. cbn [files set_file]. by rewrite lookup_insert_eq.
Qed.

(** * Further properties of the script *)

(** ** The shape of a slug *)

Lemma drop_while_stops p s :
  match drop_while p s with c :: _ => p c = false | [] => True end.
Proof. induction s as [|c s IH]; simpl; [done|]. destruct (p c) eqn:E; simpl; done. Qed.

Lemma take_while_holds p s : Forall (fun c => p c = true) (take_while p s).
Proof.
  induction s as [|c s IH]; simpl; [constructor|].
  destruct (p c) eqn:E; constructor; done.
Qed.

Section ReplaceAllShape.
Variable re : regexp.
Variable p : char -> bool.
Variable g : jsstring -> jsstring.
Hypothesis g_suffix : forall s, g s `suffix_of` s.
Hypothesis here : forall s,
  match_here re s =
    match s with
    | c :: s' => if p c then Some (g s', ∅) else None
    | [] => None
    end.

(** One step of the scan: the text before the first character of the class
    is kept, the match is replaced, and the scan goes on after the match. *)
Lemma replace_all_step n rep pre c s' :
  Forall (fun x => p x = false) pre -> p c = true ->
  replace_all (S n) re rep (pre ++ c :: s')
  = pre ++ rep ++ replace_all n re rep (g s').
Proof.
  intros Hpre Hc. cbn [replace_all]. unfold exec.
  destruct (g_suffix s') as [t Ht].
  assert (match_here re (c :: s') = Some (g s', ∅)) as Hm
    by (by rewrite here, Hc).
  remember (g s') as post eqn:Hpost. clear Hpost.
  assert (exec_at re 0 (pre ++ c :: s')
          = Some (MatchResult (length pre) (c :: t) ∅)) as ->.
  { rewrite (exec_at_first re pre (c :: s') 0 post ∅); [| |done].
    - do 2 f_equal. rewrite Ht. change (c :: t ++ post) with ((c :: t) ++ post).
      apply take_sub_suffix.
    - intros a b -> Hb. rewrite here. destruct b as [|x b]; [done|]. simpl.
      apply Forall_app in Hpre as [_ Hpre]. apply Forall_cons in Hpre as [-> _]. done. }
  cbn [m_index m_text]. rewrite take_app_length, drop_app_add.
  rewrite Ht. change (c :: t ++ post) with ((c :: t) ++ post).
  by rewrite drop_app_length.
Qed.

(** A string splits at its first character of the class. *)
Lemma first_of_class s :
  Forall (fun x => p x = false) s \/
  exists pre c s', s = pre ++ c :: s' /\ Forall (fun x => p x = false) pre /\ p c = true.
Proof.
  induction s as [|x s IH]; [left; constructor|].
  destruct (p x) eqn:Hx.
  - right. exists [], x, s. by repeat split.
  - destruct IH as [IH|(pre & c & s' & -> & Hpre & Hc)].
    + left. by constructor.
    + right. exists (x :: pre), c, s'. repeat split; [by constructor|done].
Qed.
End ReplaceAllShape.

Lemma filter_keep_all (f : char -> bool) s :
  Forall (fun x => f x = true) s -> List.filter f s = s.
Proof. induction 1 as [|x s Hx _ IH]; simpl; [done|]. by rewrite Hx, IH. Qed.

Lemma strip_is_filter : forall n s,
  length s < n ->
  replace_all n slugStripRe [] s = List.filter slug_input s.
Proof.
  induction n as [|n IH]; intros s Hn; [lia|].
  destruct (first_of_class not_slug_input s) as [Hs|(pre & c & s' & -> & Hpre & Hc)].
  - rewrite (replace_all_clean slugStripRe not_slug_input (fun s => s)
               here_slugStripRe _ _ _ Hs).
    symmetry. apply filter_keep_all. eapply Forall_impl; [exact Hs|].
    intros x Hx. unfold slug_input. by rewrite Hx.
  - rewrite (replace_all_step slugStripRe not_slug_input (fun s => s))
      by (done || apply here_slugStripRe).
    rewrite List.filter_app. simpl List.filter. unfold slug_input at 2. rewrite Hc. simpl negb.
    cbv iota. rewrite filter_keep_all.
    + simpl. f_equal. apply IH. rewrite length_app in Hn. simpl in Hn. lia.
    + eapply Forall_impl; [exact Hpre|]. intros x Hx. unfold slug_input. by rewrite Hx.
Qed.

Lemma underscore_runs_clean p s :
  Forall (fun x => p x = false) s -> underscore_runs p false s = s.
Proof. induction 1 as [|x s Hx _ IH]; simpl; [done|]. by rewrite Hx, IH. Qed.

Lemma underscore_runs_app p pre s :
  Forall (fun x => p x = false) pre ->
  underscore_runs p false (pre ++ s) = pre ++ underscore_runs p false s.
Proof. induction 1 as [|x pre Hx _ IH]; simpl; [done|]. by rewrite Hx, IH. Qed.

Lemma underscore_runs_in_run p s :
  underscore_runs p true s = underscore_runs p false (drop_while p s).
Proof.
  induction s as [|x s IH]; simpl; [done|]. destruct (p x) eqn:Hx; [done|].
  simpl. by rewrite Hx.
Qed.

Lemma space_is_runs : forall n s,
  length s < n ->
  replace_all n slugSpaceRe (js "_") s = underscore_runs is_space false s.
Proof.
  induction n as [|n IH]; intros s Hn; [lia|].
  destruct (first_of_class is_space s) as [Hs|(pre & c & s' & -> & Hpre & Hc)].
  - rewrite (replace_all_clean slugSpaceRe is_space (drop_while is_space)
               here_slugSpaceRe _ _ _ Hs).
    by rewrite underscore_runs_clean.
  - rewrite (replace_all_step slugSpaceRe is_space (drop_while is_space))
      by (done || apply drop_while_suffix || apply here_slugSpaceRe).
    rewrite underscore_runs_app by done. f_equal. simpl. rewrite Hc. f_equal.
    rewrite underscore_runs_in_run. apply IH.
    pose proof (suffix_length _ _ (drop_while_suffix is_space s')).
    rewrite length_app in Hn. simpl in Hn. lia.
Qed.

Lemma underscore_runs_ext (p q : char -> bool) s : forall b,
  Forall (fun x => p x = q x) s -> underscore_runs p b s = underscore_runs q b s.
Proof.
  induction s as [|x s IH]; intros b H; simpl; [done|].
  apply Forall_cons in H as [-> H]. destruct (q x), b; by rewrite ?IH.
Qed.

Lemma slug_input_space c :
  slug_input c = true -> is_space c = N.eqb c 32.
Proof.
  unfold slug_input. intros H. destruct (N.eqb_spec c 32) as [->|Hne]; [done|].
  char_arith.
Qed.

Lemma filter_all (f : char -> bool) s : Forall (fun x => f x = true) (List.filter f s).
Proof.
  induction s as [|x s IH]; simpl; [constructor|].
  destruct (f x) eqn:E; [by constructor|done].
Qed.

Lemma toSlug_shape x :
  toSlug x = underscore_runs (fun c => N.eqb c 32) false (List.filter slug_input x).
Proof.
  unfold toSlug, replace. cbn [re_global slugStripRe slugSpaceRe].
  rewrite strip_is_filter by lia. rewrite space_is_runs by lia.
  apply underscore_runs_ext. eapply Forall_impl; [apply filter_all|].
  intros c Hc. by apply slug_input_space.
Qed.

(** X1. A slug is the title with every character outside [a-zA-Z0-9_ ]
    dropped, and then one underscore written for each maximal run of
    spaces. *)
Theorem toSlug_drops_then_underscores x :
  toSlug x = underscore_runs (fun c => N.eqb c 32) false (List.filter slug_input x).
Proof. apply toSlug_shape. Qed.

Lemma underscore_runs_nil p s : underscore_runs p false s = [] -> s = [].
Proof. destruct s as [|c s]; [done|]. simpl. by destruct (p c). Qed.

Lemma underscore_runs_length p s : forall b,
  length (underscore_runs p b s) <= length s.
Proof.
  induction s as [|c s IH]; intros b; simpl; [done|].
  destruct (p c), b; simpl; try apply le_n_S; try apply le_S; apply IH.
Qed.

Lemma filter_nil_iff (f : char -> bool) s :
  List.filter f s = [] <-> Forall (fun c => f c = false) s.
Proof.
  induction s as [|c s IH]; simpl; [by split; [constructor|]|].
  destruct (f c) eqn:E; split.
  - done.
  - intros H. apply Forall_cons in H as [H _]. congruence.
  - intros H. constructor; [done|]. by apply IH.
  - intros H. apply Forall_cons in H as [_ H]. by apply IH.
Qed.

(** X2. A character outside [a-zA-Z0-9_ ] has no part in the slug: titles
    that differ only in such characters get the same slug, and with it the
    same output files. *)
Theorem toSlug_ignores_stripped a c b :
  not_slug_input c = true -> toSlug (a ++ c :: b) = toSlug (a ++ b).
Proof.
  intros Hc. rewrite !toSlug_shape, !List.filter_app. simpl List.filter.
  unfold slug_input at 2. by rewrite Hc.
Qed.

Lemma toSlug_ignores_stripped_witness :
  toSlug (js "to-do" ++ 33%N :: js " list") = toSlug (js "to-do" ++ js " list").
Proof. apply toSlug_ignores_stripped. reflexivity. Defined.

(** X3. The slug is empty exactly when the title has no letter, digit,
    underscore or space. *)
Theorem toSlug_empty_iff x :
  toSlug x = [] <-> Forall (fun c => not_slug_input c = true) x.
Proof.
  rewrite toSlug_shape. split.
  - intros H. apply underscore_runs_nil in H. apply filter_nil_iff in H.
    eapply Forall_impl; [exact H|]. unfold slug_input. intros c Hc.
    by apply negb_false_iff.
  - intros H. assert (List.filter slug_input x = []) as ->; [|done].
    apply filter_nil_iff. eapply Forall_impl; [exact H|].
    unfold slug_input. intros c Hc. by rewrite Hc.
Qed.

(** X4. A slug is never longer than its title. *)
Theorem toSlug_not_longer x : length (toSlug x) <= length x.
Proof.
  rewrite toSlug_shape. etrans; [apply underscore_runs_length|].
  induction x as [|c x IH]; simpl; [done|].
  destruct (slug_input c); simpl; lia.
Qed.

(** ** More on the parser *)

Lemma parseNote_fields npath note body :
  note_textContent note = Some body ->
  exists p, parseNote npath note = Ok p /\
    title p = title_or_filename npath note /\
    filename p = toSlug (title p) /\
    labels p = join (js ", ") (map name (default [] (note_labels note))).
Proof.
  intros Hbody. destruct (exec sourcePathRe body) as [m|] eqn:E.
  - rewrite (parseNote_found _ _ _ _ Hbody E). by eexists.
  - rewrite (parseNote_fallback _ _ _ Hbody E). by eexists.
Qed.

Lemma parseNote_Ok_body npath note p :
  parseNote npath note = Ok p -> exists body, note_textContent note = Some body.
Proof.
  unfold parseNote. destruct (note_textContent note) as [body|]; [eauto|done].
Qed.

(** X5. The file name of a parsed note is the slug of its title, so it holds
    only letters, digits and underscores: no path separator and no dot. *)
Theorem parsed_filename_is_safe npath note p :
  parseNote npath note = Ok p ->
  filename p = toSlug (title p) /\
  Forall (fun c => slug_char c = true) (filename p).
Proof.
  intros H. destruct (parseNote_Ok_body _ _ _ H) as [body Hbody].
  destruct (parseNote_fields npath note body Hbody) as (p' & Hp & _ & Hf & _).
  rewrite H in Hp. injection Hp as <-. split; [done|].
  rewrite Hf. apply toSlug_chars.
Qed.

Lemma parsed_filename_is_safe_witness :
  filename demo_parsed = toSlug (title demo_parsed) /\
  Forall (fun c => slug_char c = true) (filename demo_parsed).
Proof.
  apply (parsed_filename_is_safe (js "./keep/a.json") demo_note demo_parsed).
  vm_compute. reflexivity.
Defined.

Lemma source_start_dec s : source_start s \/ ~ source_start s.
Proof.
  destruct (source_startb s) eqn:E.
  - left. by apply source_startP.
  - right. intros H. apply source_startP in H. congruence.
Qed.

(** What a match of the source pattern looks like, wherever it is. *)
Lemma exec_source_shape body m :
  exec sourcePathRe body = Some m ->
  exists pre kw c t,
    body = pre ++ kw ++ c :: t /\ ci_eq kw (js "Source:") /\ is_space c = true /\
    m_index m = length pre /\
    m_text m = kw ++ c :: take_while is_space t
                 ++ take_while dot (drop_while is_space t) /\
    group m 1 = take_while dot (drop_while is_space t) /\
    drop (m_index m + length (m_text m)) body
      = drop_while dot (drop_while is_space t).
Proof.
  intros H. apply exec_at_Some in H as (pre & tx & post & -> & Hi & Ht & Hm & _).
  destruct (source_start_dec (tx ++ post)) as [(kw & c & t & Hs & Hkw & Hc)|Hno];
    [|by rewrite (here_source_none _ Hno) in Hm].
  rewrite Hs, (here_source kw c t Hkw Hc) in Hm. injection Hm as Hpost Hg.
  assert (tx = kw ++ c :: take_while is_space t
                 ++ take_while dot (drop_while is_space t)) as Htx.
  { apply (app_inv_tail post). rewrite Hs, <- Hpost.
    rewrite <- (app_assoc kw). f_equal. simpl. f_equal.
    rewrite <- (app_assoc (take_while is_space t)).
    by rewrite !take_while_drop_while. }
  exists pre, kw, c, t. rewrite Hs. simpl in Hi. split; [done|].
  split; [done|]. split; [done|]. split; [done|]. split; [congruence|].
  split.
  - unfold group. rewrite <- Hg. by rewrite lookup_insert_eq.
  - rewrite Hi, Ht, drop_app_add, <- Hs, Htx.
    rewrite <- Hpost at 1. rewrite <- Htx. by rewrite drop_app_length.
Qed.

Lemma exec_source_found body :
  (exists a b, body = a ++ b /\ source_start b) ->
  exists m, exec sourcePathRe body = Some m.
Proof.
  intros (a & b & -> & kw & c & t & -> & Hkw & Hc).
  destruct (exec sourcePathRe _) as [m|] eqn:E; [eauto|].
  pose proof (exec_at_None _ _ _ E a _ eq_refl) as H.
  by rewrite here_source in H.
Qed.

Lemma dot_not_terminator s :
  Forall (fun c => dot c = true) s ->
  Forall (fun c => is_line_terminator c = false) s.
Proof.
  intros H. eapply Forall_impl; [exact H|]. unfold dot. intros c Hc.
  by apply negb_true_iff.
Qed.

Lemma terminator_is_space c : is_line_terminator c = true -> is_space c = true.
Proof. intros H. char_arith. Qed.

Lemma take_while_dot_head s :
  match s with c :: _ => is_space c = false | [] => True end ->
  match take_while dot s with c :: _ => is_space c = false | [] => True end.
Proof. destruct s as [|c s]; [done|]. simpl. by destruct (dot c). Qed.

(** X6. Whenever the body has a source match, the source that the parser
    extracts holds no line terminator and does not begin with whitespace. *)
Theorem extracted_source_is_one_trimmed_line npath note body :
  note_textContent note = Some body ->
  (exists a b, body = a ++ b /\ source_start b) ->
  exists p, parseNote npath note = Ok p /\
    Forall (fun c => is_line_terminator c = false) (source p) /\
    match source p with c :: _ => is_space c = false | [] => True end.
Proof.
  intros Hbody Hs. destruct (exec_source_found body Hs) as [m Hm].
  rewrite (parseNote_found _ _ _ _ Hbody Hm). eexists. split; [done|].
  cbn [source].
  apply exec_source_shape in Hm as (pre & kw & c & t & _ & _ & _ & _ & _ & -> & _).
  split.
  - apply dot_not_terminator, take_while_holds.
  - apply take_while_dot_head, drop_while_stops.
Qed.

Lemma extracted_source_is_one_trimmed_line_witness :
  exists p,
    parseNote (js "./keep/n.json")
      (RawNote None (Some (js "Source:" ++ [10%N; 32%N] ++ js "http://x.com" ++ [13%N; 10%N]
                             ++ js "more")) None None) = Ok p /\
    Forall (fun c => is_line_terminator c = false) (source p) /\
    match source p with c :: _ => is_space c = false | [] => True end.
Proof.
  apply (extracted_source_is_one_trimmed_line _ _
           (js "Source:" ++ [10%N; 32%N] ++ js "http://x.com" ++ [13%N; 10%N]
              ++ js "more")).
  - reflexivity.
  - exists [], (js "Source:" ++ [10%N; 32%N] ++ js "http://x.com" ++ [13%N; 10%N]
                  ++ js "more").
    split; [reflexivity|]. apply source_startP. vm_compute. reflexivity.
Defined.

(** X7. Whenever the body has a source match, the content is the body with
    one span taken out: "Source:" in some case, the whitespace after it and
    the source.  The span has at least eight characters, and all the rest of
    the body stays, in order. *)
Theorem content_is_body_minus_source_span npath note body :
  note_textContent note = Some body ->
  (exists a b, body = a ++ b /\ source_start b) ->
  exists p pre kw ws rest,
    parseNote npath note = Ok p /\
    body = pre ++ (kw ++ ws ++ source p) ++ rest /\
    content p = pre ++ rest /\
    ci_eq kw (js "Source:") /\ ws <> [] /\ Forall (fun c => is_space c = true) ws /\
    8 <= length (kw ++ ws ++ source p).
Proof.
  intros Hbody Hs. destruct (exec_source_found body Hs) as [m Hm].
  rewrite (parseNote_found _ _ _ _ Hbody Hm).
  pose proof Hm as Hshape.
  apply exec_source_shape in Hshape
    as (pre & kw & c & t & Eb & Hkw & Hc & Hi & Ht & Hg & Hd).
  eexists. exists pre, kw, (c :: take_while is_space t),
    (drop_while dot (drop_while is_space t)).
  split; [done|]. cbn [source content]. rewrite Hg.
  split; [|split; [|split; [done|split; [done|split]]]].
  - rewrite Eb. f_equal. rewrite <- (app_assoc kw). f_equal. simpl. f_equal.
    rewrite <- (app_assoc (take_while is_space t)).
    by rewrite !take_while_drop_while.
  - unfold replace. cbn [re_global sourceStripRe].
    change (exec sourceStripRe) with (exec sourcePathRe). rewrite Hm, Hd.
    f_equal. rewrite Hi, Eb. apply take_app_length.
  - constructor; [done|]. apply take_while_holds.
  - rewrite !length_app. rewrite (Forall2_length _ _ _ Hkw). simpl. lia.
Qed.

Lemma content_is_body_minus_source_span_witness :
  exists p pre kw ws rest,
    parseNote (js "./keep/n.json")
      (RawNote None (Some (js "see Source: a" ++ [10%N] ++ js "Source: b")) None None)
      = Ok p /\
    js "see Source: a" ++ [10%N] ++ js "Source: b"
      = pre ++ (kw ++ ws ++ source p) ++ rest /\
    content p = pre ++ rest /\
    ci_eq kw (js "Source:") /\ ws <> [] /\ Forall (fun c => is_space c = true) ws /\
    8 <= length (kw ++ ws ++ source p).
Proof.
  apply (content_is_body_minus_source_span _ _
           (js "see Source: a" ++ [10%N] ++ js "Source: b")).
  - reflexivity.
  - exists (js "see "), (js "Source: a" ++ [10%N] ++ js "Source: b").
    split; [reflexivity|]. apply source_startP. vm_compute. reflexivity.
Defined.

(** ** More on the ledger *)

Lemma split_one_line sep s :
  Forall (fun c => c <> sep) s -> split sep s = [s].
Proof.
  induction 1 as [|c s Hc _ IH]; simpl; [done|].
  apply N.eqb_neq in Hc. by rewrite Hc, IH.
Qed.

Lemma split_join sep : forall l,
  l <> [] -> Forall (Forall (fun c => c <> sep)) l ->
  split sep (join [sep] l) = l.
Proof.
  induction l as [|x l IH]; intros Hne Hl; [done|].
  apply Forall_cons in Hl as [Hx Hl]. destruct l as [|y l].
  - simpl. by apply split_one_line.
  - change (join [sep] (x :: y :: l)) with (x ++ sep :: join [sep] (y :: l)).
    rewrite split_app_sep, IH by done. by rewrite split_one_line.
Qed.

Lemma split_lines_clean sep s :
  Forall (Forall (fun c => c <> sep)) (split sep s).
Proof.
  induction s as [|c s IH]; simpl; [by repeat constructor|].
  destruct (N.eqb_spec c sep) as [->|Hne].
  - by constructor.
  - pose proof (split_nonempty sep s).
    destruct (split sep s) as [|l ls]; [done|].
    apply Forall_cons in IH as [Hl Hls]. by repeat constructor.
Qed.

(** X8. Saving a working set and loading it again gives the same list,
    entry for entry, when the set is not empty and no path holds a line
    break or a lone surrogate (the file is written and read as UTF-8, which
    gives back exactly the strings without lone surrogates). *)
Theorem load_after_save E processed w :
  writable E processed_txt = true ->
  processed <> [] ->
  Forall (Forall (fun c => c <> 10%N)) processed ->
  Forall (fun path => well_formed path = true) processed ->
  exists w',
    await E (updateProcessed processed) w = (Ok tt, w') /\
    getProcessed w' = (Ok processed, w').
Proof.
  intros Hw Hne Hclean _. unfold await, updateProcessed, fs_write. rewrite Hw.
  eexists. split; [done|].
  rewrite (getProcessed_present _ (join [10%N] processed)).
  - by rewrite split_join.
  - cbn [files set_file]. by rewrite lookup_insert_eq.
Qed.

Lemma load_after_save_witness :
  exists w',
    await (demo_env false)
      (updateProcessed [js "./keep/a.json"; js "./keep/b.json"]) demo_world
      = (Ok tt, w') /\
    getProcessed w' = (Ok [js "./keep/a.json"; js "./keep/b.json"], w').
Proof.
  apply load_after_save.
  - reflexivity.
  - done.
  - repeat constructor; done.
  - repeat constructor.
Defined.

(** X9. Loading the ledger changes nothing, whatever comes of it.  When
    [processed.txt] does not exist the list is empty; a list that is read
    from the file has at least one entry, and no entry of it holds a line
    break. *)
Theorem getProcessed_is_safe w r w' :
  getProcessed w = (r, w') ->
  w' = w /\
  (files w !! processed_txt = None -> r = Ok []) /\
  (forall l, r = Ok l ->
     Forall (Forall (fun c => c <> 10%N)) l /\
     (is_Some (files w !! processed_txt) -> l <> [])).
Proof.
  destruct (files w !! processed_txt) as [c|] eqn:E.
  - rewrite (getProcessed_present _ _ E). intros [= <- <-].
    split; [done|]. split; [done|]. intros l [= <-].
    split; [apply split_lines_clean|]. intros _. apply split_nonempty.
  - rewrite (getProcessed_missing _ E). intros [= <- <-].
    split; [done|]. split; [done|]. intros l [= <-].
    split; [constructor|]. by intros [? ?].
Qed.

Lemma getProcessed_is_safe_witness :
  ledger_world = ledger_world /\
  (files ledger_world !! processed_txt = None ->
   Ok [js "./keep/a.json"; js "./keep/b.json"] = Ok []) /\
  (forall l, Ok [js "./keep/a.json"; js "./keep/b.json"] = Ok l ->
     Forall (Forall (fun c => c <> 10%N)) l /\
     (is_Some (files ledger_world !! processed_txt) -> l <> [])).
Proof.
  apply (getProcessed_is_safe ledger_world
           (Ok [js "./keep/a.json"; js "./keep/b.json"]) ledger_world).
  vm_compute. reflexivity.
Defined.

(** ** More on the loop *)

Lemma process_note_result E npath processed count w processed' count' w' :
  process_note E npath (processed, count) w = (Ok (processed', count'), w') ->
  (processed' = processed /\ count' = count) \/
  (processed' = processed ++ [npath] /\ count' = S count /\ npath ∉ processed).
Proof.
  destruct (includes npath processed) eqn:H.
  - rewrite process_note_skip by done. intros [= <- <- _]. by left.
  - rewrite process_note_new by done.
    destruct (convert E npath _) as [[[]|e] w1]; intros [= <- <- _].
    + right. repeat split. unfold includes in H. by apply bool_decide_eq_false in H.
    + by left.
Qed.

Lemma for_notes_added E : forall notes processed count w processed' count' w',
  for_notes E notes (processed, count) w = (Ok (processed', count'), w') ->
  exists added,
    processed' = processed ++ added /\ count' = count + length added /\
    added `sublist_of` notes /\ (forall x, x ∈ added -> x ∉ processed) /\
    NoDup added.
Proof.
  induction notes as [|npath rest IH]; intros pr c w pr' c' w'; cbn [for_notes].
  - intros [= <- <- _]. exists []. rewrite app_nil_r.
    split; [done|]. split; [simpl; lia|]. split; [constructor|].
    split; [by intros x Hx%elem_of_nil|constructor].
  - unfold mbind, io_bind, bind.
    destruct (process_note_total E npath (pr, c) w) as ([pr1 c1] & w1 & Hp).
    rewrite Hp. intros Hrest.
    apply IH in Hrest as (added & -> & -> & Hsub & Hfresh & Hnd).
    apply process_note_result in Hp as [[-> ->]|(-> & -> & Hnew)].
    + exists added. split; [done|]. split; [done|].
      split; [by apply sublist_cons|done].
    + exists (npath :: added). rewrite <- app_assoc.
      split; [done|]. split; [simpl; lia|]. split; [by apply sublist_skip|]. split.
      * intros x [->|Hx]%elem_of_cons; [done|].
        intros Hin. apply (Hfresh x Hx). apply elem_of_app. by left.
      * constructor; [|done]. intros Hin. apply (Hfresh npath Hin).
        apply elem_of_app. right. by apply list_elem_of_singleton.
Qed.

(** X10. The loop only appends to the working set: the old entries stay in
    place, the paths added are notes of this run in the order of the
    enumeration, and the counter grows by the number of paths added. *)
Theorem loop_appends_and_counts E notes processed count w processed' count' w' :
  for_notes E notes (processed, count) w = (Ok (processed', count'), w') ->
  exists added,
    processed' = processed ++ added /\ count' = count + length added /\
    added `sublist_of` notes.
Proof.
  intros H. apply for_notes_added in H as (added & ? & ? & ? & _). eauto.
Qed.

Lemma loop_appends_and_counts_witness :
  exists added,
    [js "./keep/a.json"] = [] ++ added /\ 1 = 0 + length added /\
    added `sublist_of` [js "./keep/b.json"; js "./keep/a.json"].
Proof.
  apply (loop_appends_and_counts (demo_env false)
           [js "./keep/b.json"; js "./keep/a.json"] [] 0 demo_world
           [js "./keep/a.json"] 1
           (snd (for_notes (demo_env false)
                   [js "./keep/b.json"; js "./keep/a.json"] ([], 0) demo_world))).
  vm_compute. reflexivity.
Defined.

(** X11. The loop adds no path twice and no path that is already in the
    working set: a working set without duplicates stays without
    duplicates. *)
Theorem loop_keeps_working_set_duplicate_free
    E notes processed count w processed' count' w' :
  NoDup processed ->
  for_notes E notes (processed, count) w = (Ok (processed', count'), w') ->
  NoDup processed'.
Proof.
  intros Hnd H. apply for_notes_added in H as (added & -> & _ & _ & Hfresh & Hadd).
  apply NoDup_app. repeat split; [done| |done].
  intros x Hx Hin. by apply (Hfresh x Hin).
Qed.

Lemma loop_keeps_working_set_duplicate_free_witness :
  NoDup [js "./keep/a.json"].
Proof.
  apply (loop_keeps_working_set_duplicate_free (demo_env false)
           [js "./keep/a.json"; js "./keep/a.json"] [] 0 demo_world
           [js "./keep/a.json"] 1
           (snd (for_notes (demo_env false)
                   [js "./keep/a.json"; js "./keep/a.json"] ([], 0) demo_world))).
  - constructor.
  - vm_compute. reflexivity.
Defined.

(** X12. When every enumerated note is already in the working set, the loop
    reads and writes no file, leaves the working set and the counter as they
    were, and logs one "Skipping" line for each note. *)
Theorem loop_skips_processed_notes E notes processed count : forall w,
  Forall (fun npath => npath ∈ processed) notes ->
  for_notes E notes (processed, count) w
  = (Ok (processed, count),
     World (files w) (console w ++ map LogSkipping notes) (pending w)).
Proof.
  induction notes as [|npath rest IH]; intros w H; cbn [for_notes].
  - unfold ret. simpl. rewrite app_nil_r. by destruct w.
  - apply Forall_cons in H as [Hin H]. unfold mbind, io_bind, bind.
    rewrite process_note_skip by (by apply bool_decide_eq_true).
    cbn [console_log snd]. rewrite IH by done. cbn [files console pending].
    by rewrite <- app_assoc.
Qed.

Lemma loop_skips_processed_notes_witness :
  for_notes (demo_env false) [js "./keep/a.json"] ([js "./keep/a.json"], 0) demo_world
  = (Ok ([js "./keep/a.json"], 0),
     World (files demo_world)
       (console demo_world ++ map LogSkipping [js "./keep/a.json"])
       (pending demo_world)).
Proof. apply loop_skips_processed_notes. repeat constructor. Defined.




(** ** The outcome of one conversion *)

Lemma pdf_md_dest_differ f : pdf_dest f <> md_dest f.
Proof.
  intros H. apply (f_equal length) in H. unfold pdf_dest, md_dest in H.
  rewrite !length_app in H. simpl in H. lia.
Qed.



(** X15. A conversion that completes has read a note that parses, and has
    written the Markdown file from the content of the parsed note - the body
    without the source span, not the template.  When the template has no
    front matter, the PDF rendered from it is at its place in
    [generated/]. *)
Theorem completed_conversion_outputs E npath w w' :
  convert E npath w = (Ok tt, w') ->
  exists data note pnote,
    files w !! npath = Some data /\ JSON_parse E data = Some note /\
    parseNote npath note = Ok pnote /\
    files w' !! md_dest (filename pnote) = Some (content pnote) /\
    (fenced (notePdfTpl pnote) = false ->
     exists pdf,
       render E (notePdfTpl pnote) = Some pdf /\
       files w' !! pdf_dest (filename pnote) = Some pdf).
Proof.
  rewrite convert_cases.
  destruct (files w !! npath) as [data|]; [|done].
  destruct (JSON_parse E data) as [note|] eqn:Hj; [|done].
  destruct (parseNote npath note) as [pnote|e0] eqn:Hp; [|done].
  destruct (await E (noteToPdf _ _) w) as [[[]|e] w1] eqn:Ha; [|done].
  destruct (writable E (md_dest _)); [|done].
  intros [= <-]. exists data, note, pnote. cbn [files set_file].
  split; [done|]. split; [done|]. split; [done|].
  split; [by rewrite lookup_insert_eq|].
  intros Hfen. unfold noteToPdf in Ha. rewrite await_unfenced in Ha by done.
  destruct (render E (notePdfTpl pnote)) as [pdf|]; [|done].
  destruct (writable E (pdf_dest _)); [|done].
  injection Ha as <-. exists pdf. split; [done|]. cbn [files set_file].
  rewrite lookup_insert_ne by (apply not_eq_sym, pdf_md_dest_differ).
  by rewrite lookup_insert_eq.
Qed.

Lemma completed_conversion_outputs_witness :
  exists data note pnote,
    files demo_world !! js "./keep/a.json" = Some data /\
    JSON_parse (demo_env false) data = Some note /\
    parseNote (js "./keep/a.json") note = Ok pnote /\
    files (snd (convert (demo_env false) (js "./keep/a.json") demo_world))
      !! md_dest (filename pnote) = Some (content pnote) /\
    (fenced (notePdfTpl pnote) = false ->
     exists pdf,
       render (demo_env false) (notePdfTpl pnote) = Some pdf /\
       files (snd (convert (demo_env false) (js "./keep/a.json") demo_world))
         !! pdf_dest (filename pnote) = Some pdf).
Proof.
  apply (completed_conversion_outputs (demo_env false) (js "./keep/a.json")
           demo_world).
  vm_compute. reflexivity.
Defined.

(** X16. A note file that parses as JSON but has no [textContent] is
    reported with a TypeError: the round writes no file and leaves the
    working set and the counter as they were. *)
Theorem note_without_text_is_reported E npath processed count w data note :
  includes npath processed = false ->
  files w !! npath = Some data ->
  JSON_parse E data = Some note ->
  note_textContent note = None ->
  process_note E npath (processed, count) w
  = (Ok (processed, count),
     World (files w)
       (console w ++ [LogProcessing npath; LogError npath TypeError]) (pending w)).
Proof.
  intros Hnew Hfile Hjson Htext. rewrite process_note_new by done.
  rewrite convert_cases. cbn [console_log snd files]. rewrite Hfile, Hjson.
  unfold parseNote. rewrite Htext. cbn [files console pending].
  by rewrite <- app_assoc.
Qed.

Lemma note_without_text_is_reported_witness :
  process_note
    (Env (fun _ => Some (RawNote (Some (js "T")) None None None))
       (fun c => Some c) (fun _ => true) (fun _ => Ok []) (fun _ => false)
       (fun _ _ => None))
    (js "./keep/a.json") ([], 0) demo_world
  = (Ok ([], 0),
     World (files demo_world)
       (console demo_world
          ++ [LogProcessing (js "./keep/a.json");
              LogError (js "./keep/a.json") TypeError])
       (pending demo_world)).
Proof.
  apply (note_without_text_is_reported _ _ _ _ _ (js "{}")
           (RawNote (Some (js "T")) None None None)); reflexivity.
Defined.

(** ** The run as a whole *)

Lemma getProcessed_total w : exists l, getProcessed w = (Ok l, w).
Proof.
  destruct (files w !! processed_txt) as [c|] eqn:E.
  - rewrite (getProcessed_present _ _ E). eauto.
  - rewrite (getProcessed_missing _ E). eauto.
Qed.

(** X17. When the enumeration of [keep/] fails, the run stops with that
    error before any note is looked at: nothing is logged and no file is
    changed. *)
Theorem enumeration_failure_is_fatal E w e :
  glob E (files w) = Throw e -> main E w = (Throw e, w).
Proof.
  intros H. unfold main, mbind, io_bind, bind.
  destruct (getProcessed_total w) as [l ->]. unfold getNotes. by rewrite H.
Qed.

Lemma enumeration_failure_is_fatal_witness :
  main (Env (fun _ => None) (fun _ => None) (fun _ => true)
          (fun _ => Throw (IOError (js "./keep"))) (fun _ => false)
          (fun _ _ => None)) demo_world
  = (Throw (IOError (js "./keep")), demo_world).
Proof. apply enumeration_failure_is_fatal. reflexivity. Defined.






(** ** The title taken from the file name *)

Lemma title_or_filename_stem dir stem note :
  note_title note = None \/ note_title note = Some [] ->
  Forall (fun c => c <> 47%N) stem ->
  (forall a b, stem = a ++ b -> b <> [] ->
     starts_with (js ".json") (b ++ js ".json") = false) ->
  title_or_filename (dir ++ 47%N :: stem ++ js ".json") note = stem.
Proof.
  intros Ht Hstem Hfirst.
  assert (title_or_filename (dir ++ 47%N :: stem ++ js ".json") note
          = replace_str (js ".json") [] (basename (dir ++ 47%N :: stem ++ js ".json")))
    as -> by (unfold title_or_filename; by destruct Ht as [-> | ->]).
  rewrite basename_of_file.
  - rewrite <- (app_nil_r (js ".json")) at 2.
    rewrite replace_str_first; [by rewrite app_nil_r|done|].
    intros a b Hab Hb. rewrite app_nil_r. by apply (Hfirst a).
  - by destruct stem.
  - apply Forall_app. split; [done|]. repeat constructor; done.
Qed.

(** X20. For a note with no title, or an empty one, in a file
    [dir/stem.json] where [stem] has no slash and ".json" does not occur
    before the extension, the title is [stem] and the file name of the
    outputs is the slug of [stem]. *)
Theorem title_falls_back_to_file_stem dir stem note body :
  note_textContent note = Some body ->
  note_title note = None \/ note_title note = Some [] ->
  Forall (fun c => c <> 47%N) stem ->
  (forall a b, stem = a ++ b -> b <> [] ->
     starts_with (js ".json") (b ++ js ".json") = false) ->
  exists p,
    parseNote (dir ++ 47%N :: stem ++ js ".json") note = Ok p /\
    title p = stem /\ filename p = toSlug stem.
Proof.
  intros Hbody Ht Hstem Hfirst.
  destruct (parseNote_fields (dir ++ 47%N :: stem ++ js ".json") note body Hbody)
    as (p & Hp & Htitle & Hfile & _).
  exists p. split; [done|].
  rewrite (title_or_filename_stem dir stem note Ht Hstem Hfirst) in Htitle.
  split; [done|]. by rewrite Hfile, Htitle.
Qed.

Lemma title_falls_back_to_file_stem_witness :
  exists p,
    parseNote (js "./keep" ++ 47%N :: js "Shopping list" ++ js ".json")
      (RawNote (Some []) (Some (js "milk")) None None) = Ok p /\
    title p = js "Shopping list" /\ filename p = toSlug (js "Shopping list").
Proof.
  apply (title_falls_back_to_file_stem (js "./keep") (js "Shopping list")
           (RawNote (Some []) (Some (js "milk")) None None) (js "milk")).
  - reflexivity.
  - by right.
  - repeat constructor; done.
  - intros a b Hab Hb.
    assert (forallb (fun i => negb (starts_with (js ".json")
                                      (drop i (js "Shopping list") ++ js ".json")))
              (seq 0 (length (js "Shopping list"))) = true) as Hall
      by (vm_compute; reflexivity).
    rewrite forallb_forall in Hall. specialize (Hall (length a)).
    rewrite Hab, drop_app_length in Hall.
    apply negb_true_iff, Hall, in_seq. rewrite length_app.
    destruct b; [done|]. simpl. lia.
Defined.

(** ** The heading, line by line *)

Lemma occurs_app_l pat a b : occurs pat a -> occurs pat (a ++ b).
Proof. intros (u & v & ->). exists u, (v ++ b). by rewrite <- !app_assoc. Qed.

Lemma occurs_app_r pat a b : occurs pat b -> occurs pat (a ++ b).
Proof. intros (u & v & ->). exists (a ++ u), v. by rewrite <- !app_assoc. Qed.

(** A comma between two texts makes no "# " of its own. *)
Lemma occurs_heading_comma x r :
  occurs (js "# ") (x ++ js "," ++ r) ->
  occurs (js "# ") x \/ occurs (js "# ") r.
Proof.
  unfold occurs. change (js "# ") with [35%N; 32%N]. change (js ",") with [44%N].
  intros (a & b & H). symmetry in H.
  apply app_eq_inv in H as [(k & -> & Hk)|(k & -> & Hk)].
  - destruct k as [|c k]; simpl in Hk; [congruence|].
    injection Hk as _ ->. right. by exists k, b.
  - destruct k as [|c1 [|c2 k]]; simpl in Hk; [congruence|congruence|].
    injection Hk as <- <- _. left. by exists a, k.
Qed.

Lemma occurs_heading_join : forall ls,
  occurs (js "# ") (join (js ",") ls) <-> Exists (occurs (js "# ")) ls.
Proof.
  induction ls as [|x ls IH].
  - split; [|by intros H; inversion H].
    intros (a & b & H). by destruct a.
  - destruct ls as [|y ls].
    + simpl. split; [by constructor|]. intros H. inversion H as [? ? Hx|? ? Hx]; [done|].
      inversion Hx.
    + change (join (js ",") (x :: y :: ls))
        with (x ++ js "," ++ join (js ",") (y :: ls)).
      split.
      * intros [H|H]%occurs_heading_comma; [by constructor|].
        apply Exists_cons_tl. by apply IH.
      * intros H. inversion H as [? ? Hx|? ? Hx]; subst.
        -- by apply occurs_app_l.
        -- apply occurs_app_r, occurs_app_r. by apply IH.
Qed.

Lemma exec_heading_occurs s m :
  exec headingRe s = Some m -> occurs (js "# ") s.
Proof.
  intros H. destruct (exec_heading s) as [_ H2].
  apply exec_at_Some in H as (pre & tx & post & -> & _ & _ & Hm & _).
  unfold match_here, headingRe in Hm. cbn [re_body re_icase] in Hm.
  rewrite rmatch_Lits in Hm.
  destruct (lits_match false (js "# ") (tx ++ post)) eqn:El; [|done].
  apply lits_match_true in El as (kw & Es & Hkw). apply same_char_eq in Hkw.
  subst kw. rewrite Es. by exists pre, (drop (length (js "# ")) (tx ++ post)).
Qed.

(** X21. The heading is [true] exactly when one of the first three lines of
    the content holds "# "; joining the lines with commas adds no match and
    hides none.  Otherwise the heading is the title. *)
Theorem heading_is_decided_by_first_three_lines npath note body :
  note_textContent note = Some body ->
  exists p, parseNote npath note = Ok p /\
    (heading p = HTrue <->
     Exists (occurs (js "# ")) (take 3 (split 10%N (content p)))) /\
    (heading p = HTrue \/ heading p = HText (title p)).
Proof.
  intros Hbody.
  assert (forall s t,
            (match exec headingRe s with Some _ => HTrue | None => HText t end = HTrue
             <-> occurs (js "# ") s) /\
            (match exec headingRe s with Some _ => HTrue | None => HText t end = HTrue \/
             match exec headingRe s with Some _ => HTrue | None => HText t end = HText t))
    as Hhd.
  { intros s t. destruct (exec_heading s) as [H1 _].
    destruct (exec headingRe s) as [m|] eqn:E.
    - split; [|by left]. split; [|done]. intros _. by apply (exec_heading_occurs s m).
    - split; [|by right]. split; [done|]. intros Ho. by destruct (H1 Ho). }
  destruct (exec sourcePathRe body) as [m|] eqn:Hexec.
  - rewrite (parseNote_found _ _ _ _ Hbody Hexec). eexists. split; [done|].
    cbn [heading content title]. rewrite <- occurs_heading_join. apply Hhd.
  - rewrite (parseNote_fallback _ _ _ Hbody Hexec). eexists. split; [done|].
    cbn [heading content title]. rewrite <- occurs_heading_join. apply Hhd.
Qed.

Lemma heading_is_decided_by_first_three_lines_witness :
  exists p,
    parseNote (js "./keep/n.json")
      (RawNote (Some (js "Foo")) (Some (js "intro#" ++ [10%N] ++ js " text")) None None)
      = Ok p /\
    (heading p = HTrue <->
     Exists (occurs (js "# ")) (take 3 (split 10%N (content p)))) /\
    (heading p = HTrue \/ heading p = HText (title p)).
Proof.
  apply (heading_is_decided_by_first_three_lines _ _
           (js "intro#" ++ [10%N] ++ js " text")).
  reflexivity.
Defined.

(** ** What the loop starts *)

Lemma process_note_log E npath processed count w st' w' :
  process_note E npath (processed, count) w = (Ok st', w') ->
  exists evs, console w' = console w ++ evs /\
    forall x, LogProcessing x ∈ evs -> x = npath /\ npath ∉ processed.
Proof.
  destruct (includes npath processed) eqn:H.
  - rewrite process_note_skip by done. intros [= _ <-].
    exists [LogSkipping npath]. split; [done|].
    intros x Hx%list_elem_of_singleton. done.
  - rewrite process_note_new by done.
    assert (npath ∉ processed) as Hnew
      by (unfold includes in H; by apply bool_decide_eq_false in H).
    destruct (convert E npath _) as [[[]|e] w1] eqn:Hc;
      apply convert_frame in Hc as (Hcon & _ & _); cbn [console_log snd console] in Hcon;
      intros [= _ <-].
    + exists [LogProcessing npath]. split; [done|].
      intros x Hx%list_elem_of_singleton. by injection Hx as ->.
    + exists [LogProcessing npath; LogError npath e]. cbn [console_log snd console].
      rewrite Hcon, <- app_assoc. split; [done|].
      intros x [Hx|Hx%list_elem_of_singleton]%elem_of_cons; [|done].
      by injection Hx as ->.
Qed.

(** X22. The loop starts the conversion only of notes that are enumerated
    and are not in the working set it was given: for a path of that working
    set no "Processing" line is logged. *)
Theorem loop_processes_only_new_notes E : forall notes processed count w st' w',
  for_notes E notes (processed, count) w = (Ok st', w') ->
  exists evs, console w' = console w ++ evs /\
    forall x, LogProcessing x ∈ evs -> x ∈ notes /\ x ∉ processed.
Proof.
  induction notes as [|npath rest IH]; intros pr c w st' w'; cbn [for_notes].
  - intros [= _ <-]. exists []. rewrite app_nil_r. split; [done|].
    by intros x Hx%elem_of_nil.
  - unfold mbind, io_bind, bind.
    destruct (process_note_total E npath (pr, c) w) as ([pr1 c1] & w1 & Hp).
    rewrite Hp. intros Hrest.
    pose proof Hp as Hres. apply process_note_result in Hres.
    apply process_note_log in Hp as (evs1 & Hc1 & H1).
    apply IH in Hrest as (evs2 & Hc2 & H2).
    exists (evs1 ++ evs2). rewrite Hc2, Hc1, <- app_assoc. split; [done|].
    intros x [Hx|Hx]%elem_of_app.
    + destruct (H1 x Hx) as [-> Hnew]. split; [by left|done].
    + destruct (H2 x Hx) as [Hin Hnot]. split; [by right|].
      intros Hpr. apply Hnot. destruct Hres as [[-> _]|(-> & _ & _)]; [done|].
      apply elem_of_app. by left.
Qed.

Lemma loop_processes_only_new_notes_witness :
  exists evs,
    console (snd (for_notes (demo_env false)
                    [js "./keep/b.json"; js "./keep/a.json"] ([js "./keep/b.json"], 0)
                    demo_world))
      = console demo_world ++ evs /\
    forall x, LogProcessing x ∈ evs ->
              x ∈ [js "./keep/b.json"; js "./keep/a.json"] /\ x ∉ [js "./keep/b.json"].
Proof.
  apply (loop_processes_only_new_notes (demo_env false)
           [js "./keep/b.json"; js "./keep/a.json"] [js "./keep/b.json"] 0 demo_world
           ([js "./keep/b.json"; js "./keep/a.json"], 1)).
  vm_compute. reflexivity.
Defined.
